(** * Operator-composition layer of the expression graph

    A shallow embedding of [src/graph/expression_operators.cpp]: the
    functions that build nodes of the expression graph ([softmax],
    [swapAxes], [atleast_nd], [dot], [affine], ...), over an explicit
    model of the graph they add nodes to.

    - A C++ [float] is an IEEE-754 binary32 value ([Float32]).
    - A C++ [int] is a [Z] of the range [-2^31, 2^31); where the source
      computes one from a shape the wrap-around is written out ([to_int]).
    - A [Shape] is the list of its dimensions.
    - An [Expr] is a handle: the identity of a node together with the
      shape fixed at its construction.
    - Graph construction is a state-and-error monad over the graph. *)

From Stdlib Require Import ZArith List Bool String Lia.
From Stdlib Require Import Floats.SpecFloat.
From stdpp Require Import base tactics option list gmap strings.

Local Open Scope Z_scope.

(** ** IEEE-754 binary32, the C++ [float] *)

Module Float32.

Definition prec : Z := 24.
Definition emax : Z := 128.

Definition float : Type := spec_float.

(** An integer literal or integer-valued decimal literal, rounded to
    nearest-even as the compiler does ([1], [0], [99999999.f]). *)
Definition of_Z (n : Z) : float := binary_normalize prec emax n 0 false.

Definition opp : float -> float := SFopp.
Definition add : float -> float -> float := SFadd prec emax.
Definition mul : float -> float -> float := SFmul prec emax.
Definition eqb : float -> float -> bool := SFeqb.

(** The value of a float whose exponent is not negative, an integer;
    [None] for the other finite floats, the infinities and NaN. *)
Definition to_Z (x : float) : option Z :=
  match x with
  | S754_zero _ => Some 0
  | S754_finite s m e =>
      if 0 <=? e
      then Some (if s then - (Z.pos m * 2 ^ e) else Z.pos m * 2 ^ e)
      else None
  | _ => None
  end.

End Float32.

Abbreviation float := Float32.float.

#[global] Instance spec_float_eq_dec : EqDecision spec_float.
Proof. solve_decision. Defined.

(** ** Failures

    [ABORT(msg)] of the source terminates the process; the checks of the
    collaborators that are not part of this file (axis resolution, node
    constructors, the tuner) fail in the kinds the specification names. *)

Inductive Failure :=
| Aborted (msg : string)      (* ABORT(msg) in the source *)
| OutOfRange                  (* an axis or index outside [0, rank) *)
| ShapeMismatch               (* a node constructor rejects its operands *)
| DivisionByZero              (* integer division by zero, undefined in C++ *)
| OutOfFuel                   (* the recursion bound of the model; see [softmax_fuel] *)
| ConfigurationError.         (* the tuner has no candidate to run *)

Inductive Result (A : Type) :=
| Ok (x : A)
| Failed (f : Failure).
Arguments Ok {A} x.
Arguments Failed {A} f.

Definition rbind {A B} (r : Result A) (k : A -> Result B) : Result B :=
  match r with
  | Ok x => k x
  | Failed f => Failed f
  end.

(** ** Shapes *)

Abbreviation Shape := (list Z).

(** The class [Shape] is declared outside this file; its members are
    modelled here from what the specification says of them. *)
Module ShapeOps.

(** Modelled from the spec: [shape.size()], the rank. *)
Definition size (s : Shape) : Z := Z.of_nat (length s).

(** Modelled from the spec: [shape.axis(ax)].  A negative axis is
    resolved to [rank + axis]; resolution fails when the resolved index is
    outside [0, rank). *)
Definition axis (s : Shape) (ax : Z) : Result Z :=
  let r := if ax <? 0 then size s + ax else ax in
  if (0 <=? r) && (r <? size s) then Ok r else Failed OutOfRange.

(** Modelled from the spec: [shape[i]], with [i] resolved as an axis. *)
Definition at_ (s : Shape) (i : Z) : Result Z :=
  rbind (axis s i) (fun r =>
    match s !! Z.to_nat r with
    | Some d => Ok d
    | None => Failed OutOfRange
    end).

(** Modelled from the spec: [shape.set(i, v)], with [i] resolved as an
    axis. *)
Definition set (s : Shape) (i : Z) (v : Z) : Result Shape :=
  rbind (axis s i) (fun r => Ok (<[Z.to_nat r := v]> s)).

(** Modelled from the spec: a default-constructed [Shape] resized to
    [n] dimensions; every dimension that was not set is 1. *)
Definition resize (n : nat) : Shape := replicate n 1.

(** Modelled from the spec: [shape.elements()], the product of the
    dimensions. *)
Definition elements (s : Shape) : Z := foldr Z.mul 1 s.

End ShapeOps.

(** ** The [int] of the source

    A C++ [int] here has 32 bits in two's complement.  An [int] is a [Z]
    of the range [-2^31, 2^31); [to_int] is what the 32 bits hold of a
    result of any size: the result wrapped around into that range. *)
Definition to_int (z : Z) : Z := (z + 2 ^ 31) mod 2 ^ 32 - 2 ^ 31.

(** A shape whose arithmetic never leaves the range of [int]: every
    dimension is positive and the element count is below [2^31]. *)
Definition int_shape (s : Shape) : Prop :=
  Forall (fun d => 0 < d) s /\ ShapeOps.elements s < 2 ^ 31.

(** ** Expressions, nodes and the graph *)

(** An [Expr] is a shared handle to a node.  Two handles are the same
    node when their identities agree ([expr_eqb], the pointer comparison
    of the source); the shape of a node never changes after construction,
    so the handle carries it. *)
Record Expr := mkExpr { expr_id : nat; expr_shape : Shape }.

#[global] Instance Expr_eq_dec : EqDecision Expr.
Proof. solve_decision. Defined.

Definition expr_eqb (a b : Expr) : bool := Nat.eqb (expr_id a) (expr_id b).

Inductive NodeInitializer :=
| inits_ones
| inits_from_value (v : float).

#[global] Instance NodeInitializer_eq_dec : EqDecision NodeInitializer.
Proof. solve_decision. Defined.

(** The node classes the operators of this file instantiate, each with
    the constructor arguments the source passes. *)
Inductive NodeOp :=
| ConstantNode (shape : Shape) (init : NodeInitializer)
| ClipNodeOp (a : Expr) (c : float)
| NegNodeOp (a : Expr)
| SoftmaxNodeOp (a : Expr)
| PlusNodeOp (a b : Expr)
| MinusNodeOp (a b : Expr)
| MultNodeOp (a b : Expr)
| DivNodeOp (a b : Expr)
| ScalarAddNodeOp (a : Expr) (scalar : float)
| ScalarMultNodeOp (a : Expr) (scalar : float)
| ReshapeNodeOp (a : Expr) (shape : Shape)
| TransposeNodeOp (a : Expr) (axes : list Z)
| SumNodeOp (a : Expr) (ax : Z)
| ScalarProductNodeOp (a b : Expr) (ax : Z)
| DotNodeOp (a b : Expr) (transA transB : bool) (scale : float)
| AffineNodeOp (nodes : list Expr) (transA transB : bool) (scale : float)
| TanhNodeOp (nodes : list Expr)
| Int16QuantizeNodeOp (a : Expr) (clipValue : float)
| Int16DotNodeOp (a b : Expr) (scale : float)
| Int16AffineNodeOp (nodes : list Expr) (scale : float).

#[global] Instance NodeOp_eq_dec : EqDecision NodeOp.
Proof. solve_decision. Defined.

Record Node := mkNode { node_expr : Expr; node_op : NodeOp }.

Inductive DeviceType := gpu | cpu.

Definition DeviceType_eqb (x y : DeviceType) : bool :=
  match x, y with
  | gpu, gpu | cpu, cpu => true
  | _, _ => false
  end.

(** The graph the expressions belong to: the nodes added so far, the
    configuration the operators query, and the tags [record] leaves on
    nodes (node identity to fingerprint and stop flag).

    Modelled from the spec: the graph collaborator ([graph->add],
    [isOptimized], [getDeviceId], [getBackend()->getClip()]).  The graph
    may deduplicate structurally identical nodes; [hashcons] says whether
    this graph does. *)
Record ExpressionGraph := mkGraph {
  tape : list Node;
  optimized : bool;
  device : DeviceType;
  backendClip : float;
  hashcons : bool;
  recorded : gmap nat (Z * bool)
}.

Definition with_tape (g : ExpressionGraph) (t : list Node) : ExpressionGraph :=
  mkGraph t (optimized g) (device g) (backendClip g) (hashcons g) (recorded g).

Definition with_recorded (g : ExpressionGraph) (r : gmap nat (Z * bool)) : ExpressionGraph :=
  mkGraph (tape g) (optimized g) (device g) (backendClip g) (hashcons g) r.

(** The operator that built a node, if the handle belongs to the graph. *)
Definition op_of (g : ExpressionGraph) (e : Expr) : option NodeOp :=
  match tape g !! expr_id e with
  | Some n => if decide (node_expr n = e) then Some (node_op n) else None
  | None => None
  end.

(** ** The construction monad: state (the graph) and failure *)

Definition M (A : Type) : Type := ExpressionGraph -> Result (A * ExpressionGraph).

Definition ret {A} (x : A) : M A := fun g => Ok (x, g).

Definition bind {A B} (m : M A) (k : A -> M B) : M B :=
  fun g => match m g with
           | Ok (x, g') => k x g'
           | Failed f => Failed f
           end.

Definition fail {A} (f : Failure) : M A := fun _ => Failed f.

Definition lift {A} (r : Result A) : M A :=
  fun g => match r with
           | Ok x => Ok (x, g)
           | Failed f => Failed f
           end.

Definition gets {A} (f : ExpressionGraph -> A) : M A := fun g => Ok (f g, g).

Declare Scope graph_scope.
Delimit Scope graph_scope with graph.
Notation "'let*' x ':=' m 'in' k" := (bind m (fun x => k))
  (at level 10, x pattern, m at level 100, k at level 200) : graph_scope.
Local Open Scope graph_scope.

(** ** The tuner *)

(** A candidate algorithm: a deferred computation that builds its nodes
    in the graph and returns the resulting expression. *)
Definition Algorithm : Type := M Expr.

(** Modelled from the spec: [AutoTuner<Expr>] (declared in
    [graph/auto_tuner.h], outside this file).  The registered candidates
    with their keys, the keys of the candidates already chosen (the
    cached choices), and every timed execution so far. *)
Record AutoTuner := mkTuner {
  algorithms_ : list (Z * Algorithm);
  resolved_ : list Z;
  measured_ : list (Z * Z)
}.

Definition newTuner : AutoTuner := mkTuner [] [] [].

(** The order in which the arguments of one call are evaluated is not
    fixed by C++; the operators below are defined for either order. *)
Inductive ArgOrder := LeftToRight | RightToLeft.

Section Operators.

(** The output shape a node class computes from its constructor
    arguments; [None] when the constructor rejects them.  The node
    classes are declared outside this file. *)
Variable newShape : NodeOp -> option Shape.

Variable argOrder : ArgOrder.

Definition args2 {A B} (ma : M A) (mb : M B) : M (A * B) :=
  match argOrder with
  | LeftToRight => let* a := ma in let* b := mb in ret (a, b)
  | RightToLeft => let* b := mb in let* a := ma in ret (a, b)
  end.

(** Modelled from the spec: [graph->add(node)] of the graph collaborator
    hands back a structurally identical node when the graph deduplicates
    and has one, and appends the new node otherwise. *)
Definition add (op : NodeOp) (sh : Shape) : M Expr :=
  fun g =>
    match (if hashcons g
           then list_find (fun n => node_op n = op) (tape g)
           else None) with
    | Some (_, n) => Ok (node_expr n, g)
    | None =>
        let e := mkExpr (length (tape g)) sh in
        Ok (e, with_tape g (tape g ++ [mkNode e op]))
    end.

(** Modelled from the spec: [Expression<T>(args...)] (a template declared
    with the graph) constructs the node, which computes its shape or
    rejects its arguments, and adds it to the graph. *)
Definition Expression (op : NodeOp) : M Expr :=
  match newShape op with
  | Some sh => add op sh
  | None => fail ShapeMismatch
  end.

(** *** Unary and scalar operators *)

(** [clip(a, c)]: a clip value of zero switches clipping off. *)
Definition clip (a : Expr) (c : float) : M Expr :=
  if Float32.eqb c (Float32.of_Z 0)
  then ret a
  else Expression (ClipNodeOp a c).

(** [operator-(Expr)] *)
Definition op_neg (a : Expr) : M Expr := Expression (NegNodeOp a).

(** [operator+], [operator-], [operator*] and [operator/] on two
    expressions. *)
Definition op_plus (a b : Expr) : M Expr := Expression (PlusNodeOp a b).
Definition op_minus (a b : Expr) : M Expr := Expression (MinusNodeOp a b).
Definition op_mult (a b : Expr) : M Expr := Expression (MultNodeOp a b).

(** [operator-(float a, Expr b)] is [ScalarAddNodeOp(-b, a)]. *)
Definition op_minus_float_expr (a : float) (b : Expr) : M Expr :=
  let* nb := op_neg b in
  Expression (ScalarAddNodeOp nb a).

(** [operator*(Expr a, float b)] *)
Definition op_mult_expr_float (a : Expr) (b : float) : M Expr :=
  Expression (ScalarMultNodeOp a b).

(** *** Shape manipulation *)

Definition reshape (a : Expr) (shape : Shape) : M Expr :=
  Expression (ReshapeNodeOp a shape).

(** [for(int i = 1; i <= (int)a->shape().size(); ++i)
       nShape.set(-i, a->shape()[-i]);] *)
Fixpoint atleast_nd_loop (src : Shape) (idx : list nat) (nShape : Shape) : Result Shape :=
  match idx with
  | [] => Ok nShape
  | i :: idx' =>
      rbind (ShapeOps.at_ src (- Z.of_nat i)) (fun d =>
      rbind (ShapeOps.set nShape (- Z.of_nat i) d) (fun nShape' =>
      atleast_nd_loop src idx' nShape'))
  end.

Definition atleast_nd (a : Expr) (dims : nat) : M Expr :=
  if (dims <=? length (expr_shape a))%nat
  then ret a
  else
    let nShape := ShapeOps.resize dims in
    let* nShape := lift (atleast_nd_loop (expr_shape a)
                           (seq 1 (length (expr_shape a))) nShape) in
    reshape a nShape.

(** [std::vector<int> axes(n); for(i = 0; i < axes.size(); ++i) axes[i] = i;] *)
Definition iota_axes (n : nat) : list Z :=
  foldl (fun axes i => <[i := Z.of_nat i]> axes) (replicate n 0) (seq 0 n).

(** [transpose(a)]: swap the last two axes. *)
Definition transpose (a : Expr) : M Expr :=
  let n := length (expr_shape a) in
  let axes := iota_axes n in
  let axes :=
    if (1 <? n)%nat
    then <[(n - 2)%nat := Z.of_nat n - 1]> (<[(n - 1)%nat := Z.of_nat n - 2]> axes)
    else axes in
  Expression (TransposeNodeOp a axes).

(** [transpose(a, axes)] *)
Definition transpose_axes (a : Expr) (axes : list Z) : M Expr :=
  Expression (TransposeNodeOp a axes).

(** [std::swap(axes[i], axes[j])]; an index outside the vector is
    undefined behaviour in the source and a failure here. *)
Definition swap (axes : list Z) (i j : Z) : Result (list Z) :=
  match axes !! Z.to_nat i, axes !! Z.to_nat j with
  | Some x, Some y =>
      if (0 <=? i) && (0 <=? j)
      then Ok (<[Z.to_nat j := x]> (<[Z.to_nat i := y]> axes))
      else Failed OutOfRange
  | _, _ => Failed OutOfRange
  end.

Definition swapAxes (x : Expr) (axis1 axis2 : Z) : M Expr :=
  let* axis1 := lift (ShapeOps.axis (expr_shape x) axis1) in
  let* axis2 := lift (ShapeOps.axis (expr_shape x) axis2) in
  if axis1 =? axis2
  then ret x
  else
    let axes := iota_axes (length (expr_shape x)) in
    let* axes := lift (swap axes axis1 axis2) in
    transpose_axes x axes.

(** *** Softmax *)

(** [softmax(a, axis)] calls itself once, with [axis = -1]; [fuel]
    bounds the depth of that recursion. *)
Fixpoint softmax_rec (fuel : nat) (a : Expr) (axis : Z) : M Expr :=
  match fuel with
  | O => fail OutOfFuel
  | S fuel' =>
      if negb (axis =? -1)
      then
        let* x := swapAxes a axis (-1) in
        let* y := softmax_rec fuel' x (-1) in
        swapAxes y axis (-1)
      else Expression (SoftmaxNodeOp a)
  end.

Definition softmax (a : Expr) (axis : Z) : M Expr := softmax_rec 2 a axis.

(** [softmax(a, zeroOneMask, axis)] *)
Definition softmax_mask (a zeroOneMask : Expr) (axis : Z) : M Expr :=
  let* m1 := op_minus_float_expr (Float32.of_Z 1) zeroOneMask in
  let* logMask := op_mult_expr_float m1 (Float32.opp (Float32.of_Z 99999999)) in
  let* s := op_plus a logMask in
  softmax s axis.

(** *** Reductions *)




(** *** List-form activations

    The overloads on [const std::vector<Expr>&]. *)

Definition plus_list (_ : list Expr) : M Expr := fail (Aborted "Not implemented").
Definition swish_list (_ : list Expr) : M Expr := fail (Aborted "Not implemented").
Definition tanh_list (nodes : list Expr) : M Expr := Expression (TanhNodeOp nodes).
Definition sigmoid_list (_ : list Expr) : M Expr := fail (Aborted "Not implemented").
Definition relu_list (_ : list Expr) : M Expr := fail (Aborted "Not implemented").
Definition leakyrelu_list (_ : list Expr) : M Expr := fail (Aborted "Not implemented").
Definition prelu_list (_ : list Expr) (_ : float) : M Expr := fail (Aborted "Not implemented").

(** *** The quantized collaborator

    Modelled from the spec: [cpu::int16::quantize], [cpu::int16::dot] and
    [cpu::int16::affine] (declared in [tensors/cpu/int16.h]); each takes
    expressions and returns the expression of the node it constructs. *)

Definition int16_quantize (a : Expr) (clipValue : float) : M Expr :=
  Expression (Int16QuantizeNodeOp a clipValue).

Definition int16_dot (a b : Expr) (scale : float) : M Expr :=
  Expression (Int16DotNodeOp a b scale).

Definition int16_affine (a b c : Expr) (scale : float) : M Expr :=
  Expression (Int16AffineNodeOp [a; b; c] scale).

(** Modelled from the spec: [graph->ones(shape)], a constant node of
    the graph collaborator. *)
Definition graph_ones (shape : Shape) : M Expr :=
  Expression (ConstantNode shape inits_ones).

(** *** dot *)

Definition dot (a b : Expr) (transA transB : bool) (scale : float) : M Expr :=
  let* device := gets device in
  let* clipValue := gets backendClip in
  let* isOptimized := gets optimized in
  if isOptimized && DeviceType_eqb device cpu
  then
    let* (qa, qb) := args2
        (let* ta := (if transA then transpose a else ret a) in
         int16_quantize ta clipValue)
        (let* tb := (if transB then ret b else transpose b) in
         int16_quantize tb clipValue) in
    int16_dot qa qb scale
  else
    let* (ac, bc) := args2 (clip a clipValue) (clip b clipValue) in
    Expression (DotNodeOp ac bc transA transB scale).

(** *** affine *)

(** Hashing is declared outside this file: [Shape::hash] and
    [util::hash_combine] at the three types it is used at. *)
Variable Shape_hash : Shape -> Z.
Variable hash_combine_size_t : Z -> Z -> Z.
Variable hash_combine_bool : Z -> bool -> Z.
Variable hash_combine_int : Z -> Z -> Z.

(** Elapsed wall time of one execution of the candidate with the given
    key, as the tuner measures it. *)
Variable elapsed : Z -> Z.

(** [for(size_t i = 0; i < sh.size(); ++i) sh.set(i, sh[i] / 4);] *)
Fixpoint sh_loop (idx : list nat) (s : Shape) : Result Shape :=
  match idx with
  | [] => Ok s
  | i :: idx' =>
      rbind (ShapeOps.at_ s (Z.of_nat i)) (fun d =>
      rbind (ShapeOps.set s (Z.of_nat i) (Z.quot d 4)) (fun s' =>
      sh_loop idx' s'))
  end.

Definition sh (s : Shape) : Result Shape := sh_loop (seq 0 (length s)) s.

(** The context of the current call as a hash. *)
Definition affine_hash (a b bias : Expr) (transA transB : bool) : Result Z :=
  rbind (sh (expr_shape a)) (fun sa =>
  rbind (sh (expr_shape b)) (fun sb =>
  rbind (sh (expr_shape bias)) (fun sc =>
    let hash := Shape_hash sa in
    let hash := hash_combine_size_t hash (Shape_hash sb) in
    let hash := hash_combine_size_t hash (Shape_hash sc) in
    let hash := hash_combine_bool hash transA in
    let hash := hash_combine_bool hash transB in
    Ok hash))).

(** [e->record(tuner, hash, stop)] tags the node. *)
Definition record (e : Expr) (hash : Z) (stop : bool) : M unit :=
  fun g => Ok (tt, with_recorded g (<[expr_id e := (hash, stop)]> (recorded g))).

(** [rec1] and [rec2] of the source, at their hash. *)
Definition rec (hash : Z) (e : Expr) (stop : bool) : M Expr :=
  let* _ := record e hash stop in
  ret e.

(** [int rows = s.elements() / s[-1];] in the arithmetic of [int]: the
    element count and the quotient are what 32 bits hold of them, and the
    division truncates towards zero. *)
Definition shape_rows (s : Shape) : Result Z :=
  rbind (ShapeOps.at_ s (-1)) (fun last =>
    if last =? 0
    then Failed DivisionByZero
    else Ok (to_int (Z.quot (to_int (ShapeOps.elements s)) last))).

(** First algorithm variant (Int16). *)
Definition alg1 (a b bias : Expr) (transA transB : bool) (scale clipValue : float)
    (hash1 : Z) : Algorithm :=
  let* (qa, qb) := args2
      (let* ta := (if transA
                   then let* t := transpose a in rec hash1 t false
                   else ret a) in
       let* q := int16_quantize ta clipValue in
       rec hash1 q false)
      (let* tb := (if transB then ret b else transpose b) in
       int16_quantize tb clipValue) in
  let* r := int16_affine qa qb bias scale in
  rec hash1 r true.

(** Second algorithm variant (CBlas). *)
Definition alg2 (a b bias : Expr) (transA transB : bool) (scale clipValue : float)
    (hash2 : Z) : Algorithm :=
  let* ac := clip a clipValue in
  let* ac := (if negb (expr_eqb ac a) then rec hash2 ac false else ret ac) in
  let* bc := clip b clipValue in
  let* bc := (if negb (expr_eqb bc b) then rec hash2 bc false else ret bc) in
  let* rows := lift (shape_rows (expr_shape ac)) in
  let* ones := graph_ones [rows; 1] in
  let* r := Expression (AffineNodeOp [ac; bc; bias; ones] transA transB scale) in
  rec hash2 r true.

(** Modelled from the spec: [clear()], read with the comment at its call
    in [affine], "start with new set of algorithms": the registered
    candidates are dropped.  The tuner is [thread_local] and outlives the
    call; what it has measured and chosen, keyed by hash, stays with it. *)
Definition clear (t : AutoTuner) : AutoTuner :=
  mkTuner [] (resolved_ t) (measured_ t).

(** Modelled from the spec: [insert] registers one candidate. *)
Definition insert (ha : Z * Algorithm) (t : AutoTuner) : AutoTuner :=
  mkTuner (algorithms_ t ++ [ha]) (resolved_ t) (measured_ t).

(** Execute each candidate once, in order, and time it. *)
Fixpoint measure (algs : list (Z * Algorithm)) : M (list (Z * Expr * Z)) :=
  match algs with
  | [] => ret []
  | (h, alg) :: rest =>
      let* e := alg in
      let* ms := measure rest in
      ret ((h, e, elapsed h) :: ms)
  end.

(** The first measurement of minimal elapsed time. *)
Fixpoint fastest (best : Z * Expr * Z) (ms : list (Z * Expr * Z)) : Z * Expr * Z :=
  match ms with
  | [] => best
  | m :: ms' => fastest (if snd m <? snd best then m else best) ms'
  end.

(** Modelled from the spec: [run()].  With no candidate it fails; a
    candidate whose choice is cached is invoked again without measuring;
    otherwise every candidate is executed and timed once, the fastest is
    cached and its result returned. *)
Definition run (t : AutoTuner) : M (Expr * AutoTuner) :=
  match algorithms_ t with
  | [] => fail ConfigurationError
  | _ :: _ =>
      match List.find (fun ha => bool_decide (fst ha ∈ resolved_ t)) (algorithms_ t) with
      | Some (_, alg) =>
          let* e := alg in
          ret (e, t)
      | None =>
          let* ms := measure (algorithms_ t) in
          match ms with
          | [] => fail ConfigurationError
          | m :: ms' =>
              let '(h, e, _) := fastest m ms' in
              ret (e, mkTuner (algorithms_ t) (h :: resolved_ t)
                        (measured_ t ++ map (fun m => (fst (fst m), snd m)) ms))
          end
      end
  end.

(** [affine], with the thread-local tuner passed in and handed back. *)
Definition affine (a b bias : Expr) (transA transB : bool) (scale : float)
    (tuner : AutoTuner) : M (Expr * AutoTuner) :=
  let* device := gets device in
  let* clipValue := gets backendClip in
  let* isOptimized := gets optimized in
  if isOptimized && DeviceType_eqb device cpu
  then
    let autotune := true in
    if autotune
    then
      (* start with new set of algorithms *)
      let tuner := clear tuner in
      (* create context for current call as hash *)
      let* hash := lift (affine_hash a b bias transA transB) in
      (* add first algorithm variant (Int16) *)
      let hash1 := hash_combine_int hash 1 in
      let tuner := insert (hash1, alg1 a b bias transA transB scale clipValue hash1) tuner in
      (* add second algorithm variant (CBlas) *)
      let hash2 := hash_combine_int hash 2 in
      let tuner := insert (hash2, alg2 a b bias transA transB scale clipValue hash2) tuner in
      (* execute algorithm with autotuning *)
      run tuner
    else
      (* cpu int16 version *)
      let* (qa, qb) := args2
          (let* ta := (if transA then transpose a else ret a) in
           int16_quantize ta clipValue)
          (let* tb := (if transB then ret b else transpose b) in
           int16_quantize tb clipValue) in
      let* r := int16_affine qa qb bias scale in
      ret (r, tuner)
  else
    (* general version, MKL, CBlas or CUDA *)
    let* rows := lift (shape_rows (expr_shape a)) in
    let* ones := graph_ones [rows; 1] in
    let* ac := clip a clipValue in
    let* bc := clip b clipValue in
    let* r := Expression (AffineNodeOp [ac; bc; bias; ones] transA transB scale) in
    ret (r, tuner).

End Operators.

Arguments args2 argOrder {A B} ma mb.

(** ** Reference collaborators

    One concrete choice for everything the operators take as a parameter,
    used to run the operators on concrete graphs. *)

Module Reference.

(** Modelled from the spec: two shapes are broadcast-compatible when,
    aligned from the trailing dimension, each pair of dimensions is equal
    or one of them is 1.  [broadcast_rev] works on reversed shapes. *)
Fixpoint broadcast_rev (a b : Shape) : option Shape :=
  match a, b with
  | [], l => Some l
  | l, [] => Some l
  | x :: a', y :: b' =>
      if x =? y then cons x <$> broadcast_rev a' b'
      else if x =? 1 then cons y <$> broadcast_rev a' b'
      else if y =? 1 then cons x <$> broadcast_rev a' b'
      else None
  end.

Definition broadcastShape (a b : Shape) : option Shape :=
  reverse <$> broadcast_rev (reverse a) (reverse b).

Definition to_option {A} (r : Result A) : option A :=
  match r with
  | Ok x => Some x
  | Failed _ => None
  end.

(** Modelled from the spec: a reduction collapses its axis to size 1. *)
Definition reduceShape (s : Shape) (ax : Z) : option Shape :=
  to_option (ShapeOps.set s ax 1).

(** Modelled from the spec: [transpose(axes)] takes a permutation of
    [0, rank) and permutes the dimensions. *)
Definition transposeShape (s : Shape) (axes : list Z) : option Shape :=
  if bool_decide (axes ≡ₚ seqZ 0 (ShapeOps.size s))
  then Some (omap (fun i => s !! Z.to_nat i) axes)
  else None.

(** The product [a · b] of the last two dimensions, either operand
    transposed first. *)
Definition dotShape (a b : Shape) (transA transB : bool) : option Shape :=
  match reverse a, reverse b with
  | ka :: ma :: batch, kb :: mb :: [] =>
      let '(m, k) := if transA then (ka, ma) else (ma, ka) in
      let '(k', n) := if transB then (kb, mb) else (mb, kb) in
      if k =? k' then Some (reverse (n :: m :: batch)) else None
  | _, _ => None
  end.

(** Modelled from the spec: unary nodes keep the shape of their input,
    binary element-wise nodes broadcast, [reshape] keeps the element
    count. *)
Definition newShape (op : NodeOp) : option Shape :=
  match op with
  | ConstantNode shape _ => Some shape
  | ClipNodeOp a _ | NegNodeOp a | SoftmaxNodeOp a
  | ScalarAddNodeOp a _ | ScalarMultNodeOp a _
  | Int16QuantizeNodeOp a _ => Some (expr_shape a)
  | PlusNodeOp a b | MinusNodeOp a b | MultNodeOp a b | DivNodeOp a b =>
      broadcastShape (expr_shape a) (expr_shape b)
  | ReshapeNodeOp a shape =>
      if ShapeOps.elements shape =? ShapeOps.elements (expr_shape a)
      then Some shape else None
  | TransposeNodeOp a axes => transposeShape (expr_shape a) axes
  | SumNodeOp a ax => reduceShape (expr_shape a) ax
  | ScalarProductNodeOp a b ax =>
      s ← broadcastShape (expr_shape a) (expr_shape b); reduceShape s ax
  | DotNodeOp a b transA transB _ =>
      dotShape (expr_shape a) (expr_shape b) transA transB
  | AffineNodeOp [a; b; _; _] transA transB _ =>
      dotShape (expr_shape a) (expr_shape b) transA transB
  | AffineNodeOp _ _ _ _ => None
  | TanhNodeOp nodes =>
      foldr (fun n acc => s ← acc; broadcastShape (expr_shape n) s) (Some []) nodes
  | Int16DotNodeOp a b _ => dotShape (expr_shape a) (expr_shape b) false true
  | Int16AffineNodeOp [a; b; _] _ =>
      dotShape (expr_shape a) (expr_shape b) false true
  | Int16AffineNodeOp _ _ => None
  end.

(** A polynomial hash of the dimensions and the usual combiner, on
    64-bit words. *)
Definition word (x : Z) : Z := x mod 2 ^ 64.

Definition hash_combine (seed v : Z) : Z :=
  word (Z.lxor seed (v + 2654435769 + Z.shiftl seed 6 + Z.shiftr seed 2)).

Definition Shape_hash (s : Shape) : Z :=
  foldl (fun seed d => hash_combine seed (word d)) (word (Z.of_nat (length s))) s.

Definition hash_combine_bool (seed : Z) (b : bool) : Z :=
  hash_combine seed (if b then 1 else 0).

(** Every execution takes one unit of time. *)
Definition elapsed (_ : Z) : Z := 1.

End Reference.

(** ** Graph invariants *)

(** Node [i] of the tape has identity [i], and every node carries the
    shape its constructor computed. *)
Definition graph_wf (newShape : NodeOp -> option Shape) (g : ExpressionGraph) : Prop :=
  forall i n, tape g !! i = Some n ->
    expr_id (node_expr n) = i /\ newShape (node_op n) = Some (expr_shape (node_expr n)).

Definition same_config (g g' : ExpressionGraph) : Prop :=
  optimized g' = optimized g /\ device g' = device g /\
  backendClip g' = backendClip g /\ hashcons g' = hashcons g.

(** [g'] is [g] with new nodes appended, built by some of [ops], in that
    order (a deduplicating graph may already have had the others). *)
Definition grown (g g' : ExpressionGraph) (ops : list NodeOp) : Prop :=
  same_config g g' /\
  exists new, tape g' = tape g ++ new /\ (node_op <$> new) `sublist_of` ops.

(** ** Vocabulary of the statements *)

Inductive ErrorKind := ShapeMismatchKind | ConfigurationErrorKind.

(** Modelled from the spec: the taxonomy of failures.  An operation that
    is not implemented and a tuner without candidates are configuration
    errors; a rejected shape or axis is a shape mismatch. *)
Definition errorKind (f : Failure) : option ErrorKind :=
  match f with
  | Aborted _ | ConfigurationError => Some ConfigurationErrorKind
  | OutOfRange | ShapeMismatch => Some ShapeMismatchKind
  | DivisionByZero | OutOfFuel => None
  end.

(** The identity on [0, n) with [r1] and [r2] exchanged. *)
Definition swapped (n : nat) (r1 r2 : Z) : list Z :=
  (fun i => if i =? r1 then r2 else if i =? r2 then r1 else i) <$> iota_axes n.

(** Modelled from the spec: the function a unary scalar node applies to
    every element of its input (the kernels are outside this file). *)
Definition elementwise (op : NodeOp) : option (float -> float) :=
  match op with
  | NegNodeOp _ => Some Float32.opp
  | ScalarAddNodeOp _ s => Some (fun x => Float32.add x s)
  | ScalarMultNodeOp _ s => Some (fun x => Float32.mul x s)
  | _ => None
  end.

(** What [clip a c] hands back: [a] itself for a zero [c], a clip node
    of [a] otherwise. *)
Definition clipped (a : Expr) (c : float) (g : ExpressionGraph) (e : Expr) : Prop :=
  if Float32.eqb c (Float32.of_Z 0)
  then e = a
  else op_of g e = Some (ClipNodeOp a c).

(** An operand as the quantized path takes it: transposed when [tr] is
    set, as it is otherwise. *)
Definition maybe_transposed (tr : bool) (a : Expr) (g : ExpressionGraph) (e : Expr) : Prop :=
  if tr
  then exists axes, op_of g e = Some (TransposeNodeOp a axes)
  else e = a.

(** The fingerprint in the words of the specification: a hash of the
    three operand shapes with every dimension divided by 4, combined with
    the two transpose flags. *)
Definition coarsen (s : Shape) : Shape := (fun d => Z.quot d 4) <$> s.

Definition fingerprint (Shape_hash : Shape -> Z)
    (hash_combine_size_t : Z -> Z -> Z) (hash_combine_bool : Z -> bool -> Z)
    (a b bias : Shape) (transA transB : bool) : Z :=
  hash_combine_bool
    (hash_combine_bool
       (hash_combine_size_t
          (hash_combine_size_t (Shape_hash (coarsen a)) (Shape_hash (coarsen b)))
          (Shape_hash (coarsen bias)))
       transA)
    transB.

(** The two candidates [affine] registers for a call, with their keys. *)
Definition affine_candidates (newShape : NodeOp -> option Shape)
    (argOrder : ArgOrder) (Shape_hash : Shape -> Z)
    (hash_combine_size_t : Z -> Z -> Z) (hash_combine_bool : Z -> bool -> Z)
    (hash_combine_int : Z -> Z -> Z)
    (a b bias : Expr) (transA transB : bool) (scale c : float)
    : list (Z * Algorithm) :=
  let hash := fingerprint Shape_hash hash_combine_size_t hash_combine_bool
                (expr_shape a) (expr_shape b) (expr_shape bias) transA transB in
  let hash1 := hash_combine_int hash 1 in
  let hash2 := hash_combine_int hash 2 in
  [(hash1, alg1 newShape argOrder a b bias transA transB scale c hash1);
   (hash2, alg2 newShape a b bias transA transB scale c hash2)].


(** ** Example graphs *)

Module Examples.

Definition zero : float := Float32.of_Z 0.
Definition one : float := Float32.of_Z 1.

(** A rank-3 tensor of ones in an otherwise empty graph on the GPU. *)
Definition x234 : Expr := mkExpr 0 [2; 3; 4].

Definition gX (hc : bool) : ExpressionGraph :=
  mkGraph [mkNode x234 (ConstantNode [2; 3; 4] inits_ones)] false gpu zero hc ∅.

End Examples.

Module AffineExamples.

Definition a32 : Expr := mkExpr 0 [32; 64].
Definition a35 : Expr := mkExpr 1 [35; 64].
Definition b64 : Expr := mkExpr 2 [64; 16].
Definition bias16 : Expr := mkExpr 3 [1; 16].

(** Four constants in a graph with the given configuration. *)
Definition gAffine (opt : bool) (dev : DeviceType) (c : float) : ExpressionGraph :=
  mkGraph [mkNode a32 (ConstantNode [32; 64] inits_ones);
           mkNode a35 (ConstantNode [35; 64] inits_ones);
           mkNode b64 (ConstantNode [64; 16] inits_ones);
           mkNode bias16 (ConstantNode [1; 16] inits_ones)]
          opt dev c false ∅.

Definition affine_ref (a b bias : Expr) (tuner : AutoTuner)
    : M (Expr * AutoTuner) :=
  affine Reference.newShape LeftToRight Reference.Shape_hash
    Reference.hash_combine Reference.hash_combine_bool Reference.hash_combine
    Reference.elapsed a b bias false false Examples.one tuner.

Definition tuner_of (r : Result (Expr * AutoTuner * ExpressionGraph)) : AutoTuner :=
  match r with
  | Ok (_, t, _) => t
  | Failed _ => newTuner
  end.


(** Two calls in a row on the optimized CPU graph, the second with the
    tuner and the graph the first one left. *)
Definition call1 : Result (Expr * AutoTuner * ExpressionGraph) :=
  affine_ref a32 b64 bias16 newTuner (gAffine true cpu Examples.zero).


End AffineExamples.

(** ** Further operators of the file *)

Section MoreOperators.

Variable newShape : NodeOp -> option Shape.

Definition atleast_1d (a : Expr) : M Expr := atleast_nd newShape a 1.
Definition atleast_2d (a : Expr) : M Expr := atleast_nd newShape a 2.
Definition atleast_3d (a : Expr) : M Expr := atleast_nd newShape a 3.
Definition atleast_4d (a : Expr) : M Expr := atleast_nd newShape a 4.

(** [flatten(a)]: [Shape shape = {a->shape().elements()};], the element
    count as the [int] that a dimension is. *)
Definition flatten (a : Expr) : M Expr :=
  let shape := [to_int (ShapeOps.elements (expr_shape a))] in
  Expression newShape (ReshapeNodeOp a shape).

(** [flatten_2d(a)]:
    [Shape shape = {a->shape().elements() / a->shape()[-1], a->shape()[-1]};]
    with the quotient computed as in [shape_rows], in [int]. *)
Definition flatten_2d (a : Expr) : M Expr :=
  let* first := lift (shape_rows (expr_shape a)) in
  let* last := lift (ShapeOps.at_ (expr_shape a) (-1)) in
  Expression newShape (ReshapeNodeOp a [first; last]).

End MoreOperators.

(** [IndexType] is a 32-bit unsigned integer; an [int] pushed into a
    vector of indices is converted to it. *)
Definition to_IndexType (z : Z) : Z := z mod 2 ^ 32.

(** The index vector of [convert2cudnnFormat]:
    [for(int b = 0; b < numExamples; ++b)
       for(int t = 0; t < numWords; ++t)
         newIndeces.push_back((t * numExamples) + b);] *)
Definition convert2cudnnFormat_indices (numWords numExamples : Z) : list Z :=
  foldl (fun newIndeces b =>
           foldl (fun newIndeces t =>
                    newIndeces
                      ++ [to_IndexType (Z.of_nat t * numExamples + Z.of_nat b)])
                 newIndeces (seq 0 (Z.to_nat numWords)))
        [] (seq 0 (Z.to_nat numExamples)).

(** The index vector of [convertFromcudnnFormat]:
    [for(int t = 0; t < sentenceDim; ++t)
       for(int b = 0; b < batchDim; ++b)
         newIndeces.push_back(b * sentenceDim + t);] *)
Definition convertFromcudnnFormat_indices (batchDim sentenceDim : Z) : list Z :=
  foldl (fun newIndeces t =>
           foldl (fun newIndeces b =>
                    newIndeces
                      ++ [to_IndexType (Z.of_nat b * sentenceDim + Z.of_nat t)])
                 newIndeces (seq 0 (Z.to_nat batchDim)))
        [] (seq 0 (Z.to_nat sentenceDim)).

(** The shape [convert2cudnnFormat] reshapes its result to:
    [numWords = x->shape()[0]], [numExamples = x->shape()[1]],
    [embSize = x->shape()[2]] and
    [Shape outShape({numExamples, 1, numWords, embSize})]. *)
Definition convert2cudnnFormat_outShape (s : Shape) : Result Shape :=
  rbind (ShapeOps.at_ s 0) (fun numWords =>
  rbind (ShapeOps.at_ s 1) (fun numExamples =>
  rbind (ShapeOps.at_ s 2) (fun embSize =>
  Ok [numExamples; 1; numWords; embSize]))).

(** The shape [convertFromcudnnFormat] reshapes its result to:
    [batchDim = x->shape()[0]], [sentenceDim = x->shape()[2]],
    [embSize = x->shape()[3]] and
    [Shape shape({batchDim, sentenceDim, embSize})]. *)
Definition convertFromcudnnFormat_shape (s : Shape) : Result Shape :=
  rbind (ShapeOps.at_ s 0) (fun batchDim =>
  rbind (ShapeOps.at_ s 2) (fun sentenceDim =>
  rbind (ShapeOps.at_ s 3) (fun embSize =>
  Ok [batchDim; sentenceDim; embSize]))).

(** The graph with the optimize flag off and everything else as it is. *)
Definition unoptimized (g : ExpressionGraph) : ExpressionGraph :=
  mkGraph (tape g) false (device g) (backendClip g) (hashcons g) (recorded g).

(** The graph [g1] with the flag of [g] and the tag of a finished
    candidate on [e]. *)
Definition finished (g g1 : ExpressionGraph) (e : Expr) (hash : Z) : ExpressionGraph :=
  mkGraph (tape g1) (optimized g) (device g1) (backendClip g1) (hashcons g1)
          (<[expr_id e := (hash, true)]> (recorded g1)).

(** ** Shape rules of the node classes

    What the statements below assume of node classes declared outside
    this file, each as the specification has it. *)

(** The dimensions of [s] in the order [axes] names them. *)
Definition permuted (s : Shape) (axes : list Z) : Shape :=
  omap (fun i => s !! Z.to_nat i) axes.

(** A transpose node takes a permutation of [0, rank) and has the
    dimensions of its input in that order. *)
Definition transposes_permute (newShape : NodeOp -> option Shape) : Prop :=
  forall a axes,
    newShape (TransposeNodeOp a axes)
    = Reference.transposeShape (expr_shape a) axes.

(** A softmax node has the shape of its input. *)
Definition softmax_keeps_shape (newShape : NodeOp -> option Shape) : Prop :=
  forall a, newShape (SoftmaxNodeOp a) = Some (expr_shape a).

(** A reshape node accepts every shape with the element count of its
    input, and has that shape. *)
Definition reshape_keeps_count (newShape : NodeOp -> option Shape) : Prop :=
  forall a sh,
    ShapeOps.elements sh = ShapeOps.elements (expr_shape a) ->
    newShape (ReshapeNodeOp a sh) = Some sh.

(** A clip node has the shape of its input. *)
Definition clip_keeps_shape (newShape : NodeOp -> option Shape) : Prop :=
  forall a c, newShape (ClipNodeOp a c) = Some (expr_shape a).

(** ** Values of nodes

    The kernels that compute a node's value are outside this file.  The
    ones the reductions and the element-wise operators need are modelled
    here: a tensor is its shape and its elements by index. *)

Record Tensor := mkTensor { t_shape : Shape; t_data : list Z -> float }.

Definition float_div : float -> float -> float :=
  SFdiv Float32.prec Float32.emax.

(** Modelled from the spec: broadcasting.  The index, into an operand of
    shape [s], of the element that goes into the result at [idx]: the
    shapes are aligned from the trailing dimension, and a dimension of
    size 1 is read at 0 whatever the index. *)
Definition bindex (s : Shape) (idx : list Z) : list Z :=
  zip_with (fun d i => if d =? 1 then 0 else i) s
           (drop (length idx - length s) idx).

(** Modelled from the spec: a binary element-wise kernel over two
    broadcast operands. *)
Definition tbinary (f : float -> float -> float) (A B : Tensor) : option Tensor :=
  s ← Reference.broadcastShape (t_shape A) (t_shape B);
  Some (mkTensor s (fun idx =>
    f (t_data A (bindex (t_shape A) idx)) (t_data B (bindex (t_shape B) idx)))).

(** [f 0 + f 1 + ... + f (n - 1)], added up from the left. *)
Definition sum_upto (n : Z) (f : Z -> float) : float :=
  foldl (fun acc k => Float32.add acc (f (Z.of_nat k)))
        (Float32.of_Z 0) (seq 0 (Z.to_nat n)).

(** Modelled from the spec: the sum over an axis, which collapses the
    axis to size 1. *)
Definition tsum (A : Tensor) (ax : Z) : option Tensor :=
  r ← Reference.to_option (ShapeOps.axis (t_shape A) ax);
  d ← t_shape A !! Z.to_nat r;
  Some (mkTensor (<[Z.to_nat r := 1]> (t_shape A)) (fun idx =>
    sum_upto d (fun k => t_data A (<[Z.to_nat r := k]> idx)))).

(** Modelled from the spec: the scalar product of two broadcast operands
    along an axis: at every position of the other axes, the products of
    the paired elements along the axis, added up. *)
Definition tscalar_product (A B : Tensor) (ax : Z) : option Tensor :=
  s ← Reference.broadcastShape (t_shape A) (t_shape B);
  r ← Reference.to_option (ShapeOps.axis s ax);
  d ← s !! Z.to_nat r;
  Some (mkTensor (<[Z.to_nat r := 1]> s) (fun idx =>
    sum_upto d (fun k =>
      Float32.mul (t_data A (bindex (t_shape A) (<[Z.to_nat r := k]> idx)))
                  (t_data B (bindex (t_shape B) (<[Z.to_nat r := k]> idx)))))).

(** A constant filled by its initializer. *)
Definition tconstant (shape : Shape) (init : NodeInitializer) : Tensor :=
  mkTensor shape (fun _ =>
    match init with
    | inits_ones => Float32.of_Z 1
    | inits_from_value v => v
    end).

(** The value of a node from the values of its children; [None] for a
    node whose kernel is not modelled or whose operands do not fit. *)
Definition kernel (value : Expr -> option Tensor) (op : NodeOp) : option Tensor :=
  match op with
  | ConstantNode shape init => Some (tconstant shape init)
  | PlusNodeOp a b => A ← value a; B ← value b; tbinary Float32.add A B
  | MultNodeOp a b => A ← value a; B ← value b; tbinary Float32.mul A B
  | DivNodeOp a b => A ← value a; B ← value b; tbinary float_div A B
  | SumNodeOp a ax => A ← value a; tsum A ax
  | ScalarProductNodeOp a b ax =>
      A ← value a; B ← value b; tscalar_product A B ax
  | _ => None
  end.

(** The forward pass down to depth [fuel]. *)
Fixpoint value (fuel : nat) (g : ExpressionGraph) (e : Expr) : option Tensor :=
  match fuel with
  | O => None
  | S fuel' => op ← op_of g e; kernel (value fuel' g) op
  end.

Module AverageExamples.



End AverageExamples.

(** ** Laws of the construction monad *)

Lemma bind_Ok {A B} (m : M A) (k : A -> M B) g y g' :
  bind m k g = Ok (y, g') <->
  exists x g1, m g = Ok (x, g1) /\ k x g1 = Ok (y, g').
Proof.
  unfold bind. split.
  - destruct (m g) as [[x g1]|f]; [eauto | discriminate].
  - intros (x & g1 & -> & H). exact H.
Qed.

Lemma bind_lift_Ok {A B} (x : A) (k : A -> M B) : bind (lift (Ok x)) k = k x.
Proof. reflexivity. Qed.

Lemma bind_Failed {A B} (m : M A) (k : A -> M B) g f :
  bind m k g = Failed f <->
  m g = Failed f \/ exists x g1, m g = Ok (x, g1) /\ k x g1 = Failed f.
Proof.
  unfold bind. destruct (m g) as [[x g1]|f0]; split.
  - intros H. right. by exists x, g1.
  - intros [H|(x' & g1' & H & H')]; [discriminate|]. by inversion H; subst.
  - intros [= ->]. by left.
  - intros [[= ->]|(x' & g1' & H & _)]; [done | discriminate].
Qed.

Lemma lift_Ok {A} (r : Result A) g x g' :
  lift r g = Ok (x, g') <-> r = Ok x /\ g' = g.
Proof.
  unfold lift. destruct r; split; intros H; try discriminate.
  - by inversion H.
  - by destruct H as [[= ->] ->].
  - by destruct H.
Qed.

Lemma ret_Ok {A} (x y : A) g g' : ret x g = Ok (y, g') <-> y = x /\ g' = g.
Proof. unfold ret. split; [by intros [= <- <-] | by intros [-> ->]]. Qed.

Lemma gets_Ok {A} (f : ExpressionGraph -> A) g y g' :
  gets f g = Ok (y, g') <-> y = f g /\ g' = g.
Proof. unfold gets. split; [by intros [= <- <-] | by intros [-> ->]]. Qed.

(** Decompose a successful run into the runs of its steps. *)
Ltac run_inv H :=
  lazymatch type of H with
  | bind _ _ _ = Ok _ =>
      let x := fresh "x" in
      let g := fresh "g" in
      let H1 := fresh "Hrun" in
      let H2 := fresh "Hrun" in
      apply bind_Ok in H; destruct H as (x & g & H1 & H2);
      (let c := constr:(H1) in run_inv c);
      (let c := constr:(H2) in run_inv c)
  | lift _ _ = Ok _ =>
      let E := fresh "Hlift" in
      apply lift_Ok in H; destruct H as [E ->]
  | ret _ _ = Ok _ => apply ret_Ok in H; destruct H as [-> ->]
  | gets _ _ = Ok _ => apply gets_Ok in H; destruct H as [-> ->]
  | _ => idtac
  end.

Lemma same_config_refl g : same_config g g.
Proof. by repeat split. Qed.

Lemma same_config_trans g1 g2 g3 :
  same_config g1 g2 -> same_config g2 g3 -> same_config g1 g3.
Proof.
  unfold same_config. intros (?&?&?&?) (?&?&?&?). repeat split; congruence.
Qed.

Lemma grown_refl g : grown g g [].
Proof.
  split; [apply same_config_refl|]. exists []. by rewrite app_nil_r.
Qed.

Lemma grown_trans g1 g2 g3 l1 l2 :
  grown g1 g2 l1 -> grown g2 g3 l2 -> grown g1 g3 (l1 ++ l2).
Proof.
  intros [C1 (n1 & E1 & S1)] [C2 (n2 & E2 & S2)].
  split; [by eapply same_config_trans|].
  exists (n1 ++ n2). split.
  - by rewrite E2, E1, app_assoc.
  - rewrite fmap_app. by apply sublist_app.
Qed.

Lemma grown_weaken g g' l l' :
  l `sublist_of` l' -> grown g g' l -> grown g g' l'.
Proof.
  intros S [C (n & E & S')]. split; [done|]. exists n. split; [done|].
  by etrans.
Qed.

Lemma op_of_grown g g' l e op :
  grown g g' l -> op_of g e = Some op -> op_of g' e = Some op.
Proof.
  intros [_ (new & E & _)]. unfold op_of. rewrite E.
  destruct (tape g !! expr_id e) as [n|] eqn:L; [|done].
  by rewrite (lookup_app_l_Some _ _ _ _ L).
Qed.

(** ** Adding a node *)

Section ExpressionFacts.

Variable newShape : NodeOp -> option Shape.

Lemma record_Ok e hash stop g u g' :
  record e hash stop g = Ok (u, g') ->
  tape g' = tape g /\ same_config g g' /\
  recorded g' !! expr_id e = Some (hash, stop).
Proof.
  unfold record. intros [= <- <-]. simpl.
  repeat split. by rewrite lookup_insert_eq.
Qed.

Lemma graph_wf_snoc g sh op :
  graph_wf newShape g ->
  newShape op = Some sh ->
  graph_wf newShape
    (with_tape g (tape g ++ [mkNode (mkExpr (length (tape g)) sh) op])).
Proof.
  intros WF NS i n. simpl. rewrite lookup_app_Some. intros [L | [Hi L]].
  - by apply WF.
  - apply list_lookup_singleton_Some in L as [Hi' <-]. simpl.
    split; [lia | done].
Qed.

Lemma op_of_snoc g e op :
  expr_id e = length (tape g) ->
  op_of (with_tape g (tape g ++ [mkNode e op])) e = Some op.
Proof.
  intros Hid. unfold op_of. simpl. rewrite Hid.
  rewrite lookup_app_r by lia. rewrite Nat.sub_diag. simpl.
  by rewrite decide_True.
Qed.

Lemma grown_snoc g n : grown g (with_tape g (tape g ++ [n])) [node_op n].
Proof.
  split; [by repeat split|]. exists [n]. by split.
Qed.

Lemma add_Ok op sh g e g' :
  graph_wf newShape g ->
  newShape op = Some sh ->
  add op sh g = Ok (e, g') ->
  graph_wf newShape g' /\ grown g g' [op] /\
  op_of g' e = Some op /\ expr_shape e = sh.
Proof.
  intros WF NS. unfold add.
  destruct (if hashcons g then list_find _ (tape g) else None)
    as [[i n]|] eqn:F.
  - intros [= <- <-].
    assert (tape g !! i = Some n /\ node_op n = op) as [L Hop].
    { destruct (hashcons g); [|done].
      apply list_find_Some in F as (L & Hop & _). done. }
    destruct (WF _ _ L) as [Hid Hsh].
    split; [done|]. split.
    { eapply grown_weaken; [apply sublist_nil_l | apply grown_refl]. }
    split.
    + unfold op_of. rewrite Hid, L. rewrite decide_True by done. by rewrite Hop.
    + rewrite Hop in Hsh. congruence.
  - intros [= <- <-].
    split; [by apply graph_wf_snoc|]. split.
    { apply (grown_snoc g (mkNode (mkExpr (length (tape g)) sh) op)). }
    split; [by apply op_of_snoc | done].
Qed.

Lemma Expression_Ok op g e g' :
  graph_wf newShape g ->
  Expression newShape op g = Ok (e, g') ->
  graph_wf newShape g' /\ grown g g' [op] /\
  op_of g' e = Some op /\ newShape op = Some (expr_shape e).
Proof.
  intros WF. unfold Expression.
  destruct (newShape op) as [sh|] eqn:NS; [|done].
  intros H. destruct (add_Ok _ _ _ _ _ WF NS H) as (?&?&?&->). done.
Qed.

(** The node constructor accepting its arguments is all it takes for
    [Expression] to return. *)
Lemma Expression_returns op sh g :
  newShape op = Some sh ->
  exists e g', Expression newShape op g = Ok (e, g').
Proof.
  intros NS. unfold Expression, add. rewrite NS.
  destruct (if hashcons g then list_find _ (tape g) else None)
    as [[i n]|]; eauto.
Qed.

End ExpressionFacts.

(** ** Shapes and axis resolution *)

Lemma axis_Ok s ax r :
  ShapeOps.axis s ax = Ok r <->
  0 <= r < ShapeOps.size s /\ r = (if ax <? 0 then ShapeOps.size s + ax else ax).
Proof.
  unfold ShapeOps.axis.
  destruct (_ && _) eqn:E.
  - apply andb_true_iff in E as [E1 E2].
    apply Z.leb_le in E1. apply Z.ltb_lt in E2.
    split; [intros [= <-]; done | intros [_ ->]; done].
  - apply andb_false_iff in E.
    split; [done|]. intros [[H1 H2] ->]. exfalso.
    destruct E as [E|E]; [apply Z.leb_gt in E | apply Z.ltb_ge in E]; lia.
Qed.

Lemma axis_nonneg s (i : nat) :
  (i < length s)%nat -> ShapeOps.axis s (Z.of_nat i) = Ok (Z.of_nat i).
Proof.
  intros H. apply axis_Ok. unfold ShapeOps.size.
  destruct (Z.ltb_spec (Z.of_nat i) 0); lia.
Qed.

Lemma axis_neg s (i : nat) :
  (1 <= i <= length s)%nat ->
  ShapeOps.axis s (- Z.of_nat i) = Ok (Z.of_nat (length s - i)).
Proof.
  intros H. apply axis_Ok. unfold ShapeOps.size.
  destruct (Z.ltb_spec (- Z.of_nat i) 0); lia.
Qed.

(** [-1] names the last axis of every shape of rank at least 1. *)
Lemma axis_last s :
  (1 <= length s)%nat ->
  ShapeOps.axis s (-1) = Ok (ShapeOps.size s - 1).
Proof.
  intros H. apply axis_Ok. unfold ShapeOps.size. simpl. lia.
Qed.

Lemma at_neg s (i : nat) d :
  (1 <= i <= length s)%nat ->
  s !! (length s - i)%nat = Some d ->
  ShapeOps.at_ s (- Z.of_nat i) = Ok d.
Proof.
  intros H L. unfold ShapeOps.at_. rewrite axis_neg by done. simpl.
  by rewrite Nat2Z.id, L.
Qed.

Lemma set_neg s (i : nat) v :
  (1 <= i <= length s)%nat ->
  ShapeOps.set s (- Z.of_nat i) v = Ok (<[(length s - i)%nat := v]> s).
Proof.
  intros H. unfold ShapeOps.set. rewrite axis_neg by done. simpl.
  by rewrite Nat2Z.id.
Qed.

Lemma at_nonneg s (i : nat) d :
  s !! i = Some d -> ShapeOps.at_ s (Z.of_nat i) = Ok d.
Proof.
  intros L. unfold ShapeOps.at_.
  rewrite axis_nonneg by (by eapply lookup_lt_Some). simpl.
  by rewrite Nat2Z.id, L.
Qed.

Lemma set_nonneg s (i : nat) v :
  (i < length s)%nat ->
  ShapeOps.set s (Z.of_nat i) v = Ok (<[i := v]> s).
Proof.
  intros H. unfold ShapeOps.set. rewrite axis_nonneg by done. simpl.
  by rewrite Nat2Z.id.
Qed.

Lemma elements_app s t :
  ShapeOps.elements (s ++ t) = ShapeOps.elements s * ShapeOps.elements t.
Proof.
  unfold ShapeOps.elements. induction s as [|d s IH]; simpl.
  - by destruct (foldr Z.mul 1 t).
  - rewrite IH. lia.
Qed.

Lemma elements_ones n : ShapeOps.elements (replicate n 1) = 1.
Proof.
  unfold ShapeOps.elements. induction n as [|n IH]; simpl; [done|].
  rewrite IH. done.
Qed.

(** The loop that fills [axes] with [0, 1, ..., n-1]. *)
Lemma iota_axes_loop (pre : list Z) m :
  foldl (fun axes i => <[i := Z.of_nat i]> axes)
        (pre ++ replicate m 0) (seq (length pre) m)
  = pre ++ (Z.of_nat <$> seq (length pre) m).
Proof.
  revert pre. induction m as [|m IH]; intros pre; simpl; [done|].
  replace (<[length pre := Z.of_nat (length pre)]> (pre ++ 0 :: replicate m 0))
    with ((pre ++ [Z.of_nat (length pre)]) ++ replicate m 0).
  - specialize (IH (pre ++ [Z.of_nat (length pre)])).
    rewrite length_app in IH. simpl in IH.
    rewrite Nat.add_1_r in IH. rewrite IH. by rewrite <- app_assoc.
  - rewrite <- app_assoc. simpl.
    rewrite insert_app_r_alt by lia. by rewrite Nat.sub_diag.
Qed.

Lemma iota_axes_seq n : iota_axes n = Z.of_nat <$> seq 0 n.
Proof. apply (iota_axes_loop [] n). Qed.

Lemma iota_axes_length n : length (iota_axes n) = n.
Proof. by rewrite iota_axes_seq, length_fmap, length_seq. Qed.

Lemma iota_axes_lookup n (i : nat) :
  (i < n)%nat -> iota_axes n !! i = Some (Z.of_nat i).
Proof.
  intros H. rewrite iota_axes_seq, list_lookup_fmap.
  by rewrite lookup_seq_lt.
Qed.

(** The loop of [atleast_nd], after its first [k] iterations and with
    [j] to go: the last [k] dimensions of the source are in place. *)
Lemma atleast_nd_loop_from (src : Shape) (n k j : nat) :
  (length src < n)%nat ->
  (k + j = length src)%nat ->
  atleast_nd_loop src (seq (S k) j)
    (replicate (n - k) 1 ++ drop (length src - k) src)
  = Ok (replicate (n - length src) 1 ++ src).
Proof.
  intros Hn. revert k. induction j as [|j IH]; intros k Hk; simpl.
  - replace k with (length src) by lia. by rewrite Nat.sub_diag, drop_0.
  - assert (is_Some (src !! (length src - S k)%nat)) as [d Hd].
    { apply lookup_lt_is_Some. lia. }
    rewrite (at_neg src (S k) d) by (done || lia). simpl.
    rewrite set_neg; last first.
    { rewrite length_app, length_replicate, length_drop. lia. }
    simpl. rewrite length_app, length_replicate, length_drop.
    replace (n - k + (length src - (length src - k)) - S k)%nat
      with (n - S k)%nat by lia.
    replace (<[(n - S k)%nat := d]> (replicate (n - k) 1 ++ drop (length src - k) src))
      with (replicate (n - S k) 1 ++ drop (length src - S k) src).
    { apply IH. lia. }
    replace (n - k)%nat with (n - S k + 1)%nat by lia.
    rewrite replicate_add. simpl. rewrite <- app_assoc. simpl.
    rewrite insert_app_r_alt by (rewrite length_replicate; lia).
    rewrite length_replicate, Nat.sub_diag. simpl.
    f_equal.
    rewrite (drop_S src d (length src - S k)) by done.
    do 2 f_equal. lia.
Qed.

Lemma atleast_nd_loop_pad (src : Shape) (n : nat) :
  (length src < n)%nat ->
  atleast_nd_loop src (seq 1 (length src)) (ShapeOps.resize n)
  = Ok (replicate (n - length src) 1 ++ src).
Proof.
  intros Hn. unfold ShapeOps.resize.
  pose proof (atleast_nd_loop_from src n 0 (length src) Hn eq_refl) as H.
  rewrite Nat.sub_0_r in H. rewrite Nat.sub_0_r in H.
  rewrite drop_all, app_nil_r in H. exact H.
Qed.

(** The loop that coarsens a shape: dimensions before [length pre] are
    already divided. *)
Lemma sh_loop_from (pre rest : Shape) :
  sh_loop (seq (length pre) (length rest)) (pre ++ rest)
  = Ok (pre ++ ((fun d => Z.quot d 4) <$> rest)).
Proof.
  revert pre. induction rest as [|d rest IH]; intros pre; simpl; [done|].
  rewrite (at_nonneg _ _ d) by (by rewrite lookup_app_r, Nat.sub_diag).
  simpl. rewrite set_nonneg by (rewrite length_app; simpl; lia).
  simpl. rewrite insert_app_r_alt by lia. rewrite Nat.sub_diag. simpl.
  specialize (IH (pre ++ [d `quot` 4])).
  rewrite length_app in IH. simpl in IH. rewrite Nat.add_1_r in IH.
  rewrite <- app_assoc in IH. simpl in IH. rewrite IH.
  by rewrite <- app_assoc.
Qed.

(** [sh] divides every dimension by 4, rounding toward zero; it never
    fails. *)
Lemma sh_quot (s : Shape) : sh s = Ok ((fun d => Z.quot d 4) <$> s).
Proof. apply (sh_loop_from [] s). Qed.

Lemma graph_wf_gX hc : graph_wf Reference.newShape (Examples.gX hc).
Proof.
  intros [|i] n; simpl; [|by rewrite lookup_nil].
  by intros [= <-].
Qed.


Lemma graph_wf_gAffine opt dev c :
  graph_wf Reference.newShape (AffineExamples.gAffine opt dev c).
Proof.
  intros [|[|[|[|i]]]] n; simpl; by intros [= <-].
Qed.

Lemma Reference_reshape a sh :
  ShapeOps.elements sh = ShapeOps.elements (expr_shape a) ->
  Reference.newShape (ReshapeNodeOp a sh) = Some sh.
Proof. intros H. simpl. by rewrite H, Z.eqb_refl. Qed.

(** ** atleast_nd *)

(** C6.  [atleast_nd a n] returns [a] itself, leaving the graph as it
    was, when the rank of [a] is at least [n].  Otherwise it is the
    reshape of [a] to the shape of rank [n] that has 1 in its first
    [n - rank a] positions and the dimensions of [a] after them; the
    reshape keeps the element count, so it returns whenever the reshape
    node accepts shapes of equal element count. *)
Theorem atleast_nd_spec (newShape : NodeOp -> option Shape) (a : Expr) (n : nat)
    (g : ExpressionGraph) :
  graph_wf newShape g ->
  (forall sh, ShapeOps.elements sh = ShapeOps.elements (expr_shape a) ->
              newShape (ReshapeNodeOp a sh) = Some sh) ->
  let r := length (expr_shape a) in
  let padded := replicate (n - r) 1 ++ expr_shape a in
  ((n <= r)%nat -> atleast_nd newShape a n g = Ok (a, g)) /\
  ((r < n)%nat ->
     atleast_nd newShape a n = reshape newShape a padded /\
     length padded = n /\
     drop (n - r) padded = expr_shape a /\
     ShapeOps.elements padded = ShapeOps.elements (expr_shape a) /\
     exists e g', atleast_nd newShape a n g = Ok (e, g') /\
                  expr_shape e = padded /\
                  op_of g' e = Some (ReshapeNodeOp a padded) /\
                  grown g g' [ReshapeNodeOp a padded]).
Proof.
  intros WF Hreshape r padded. split.
  - intros Hle. unfold atleast_nd.
    apply Nat.leb_le in Hle. fold r. by rewrite Hle.
  - intros Hlt.
    assert (atleast_nd newShape a n = reshape newShape a padded) as Eq.
    { unfold atleast_nd. fold r.
      destruct (Nat.leb_spec n r) as [?|_]; [lia|].
      unfold r. rewrite atleast_nd_loop_pad by done. reflexivity. }
    assert (ShapeOps.elements padded = ShapeOps.elements (expr_shape a)) as El.
    { unfold padded. rewrite elements_app, elements_ones. lia. }
    split; [done|]. split.
    { unfold padded. rewrite length_app, length_replicate. lia. }
    split.
    { unfold padded. rewrite drop_app_length'; [done|].
      by rewrite length_replicate. }
    split; [done|].
    rewrite Eq. unfold reshape.
    destruct (Expression_returns newShape _ _ g (Hreshape _ El)) as (e & g' & H).
    exists e, g'. split; [done|].
    destruct (Expression_Ok _ _ _ _ _ WF H) as (_ & G & O & S).
    rewrite (Hreshape _ El) in S. by inversion S.
Qed.

Lemma atleast_nd_spec_witness :
  atleast_nd Reference.newShape Examples.x234 2 (Examples.gX true)
    = Ok (Examples.x234, Examples.gX true) /\
  exists e g',
    atleast_nd Reference.newShape Examples.x234 5 (Examples.gX true) = Ok (e, g') /\
    expr_shape e = [1; 1; 2; 3; 4].
Proof.
  split.
  - apply (atleast_nd_spec Reference.newShape Examples.x234 2 (Examples.gX true)
             (graph_wf_gX true) (Reference_reshape Examples.x234)).
    simpl. lia.
  - destruct (atleast_nd_spec Reference.newShape Examples.x234 5 (Examples.gX true)
                (graph_wf_gX true) (Reference_reshape Examples.x234)) as [_ H].
    destruct H as (_ & _ & _ & _ & e & g' & H1 & H2 & _); [simpl; lia|].
    exists e, g'. split; [exact H1 | exact H2].
Defined.

(** ** swapAxes *)

Lemma swap_iota (n : nat) (r1 r2 : Z) :
  0 <= r1 < Z.of_nat n -> 0 <= r2 < Z.of_nat n ->
  swap (iota_axes n) r1 r2 = Ok (swapped n r1 r2).
Proof.
  intros H1 H2. unfold swap.
  rewrite (iota_axes_lookup n (Z.to_nat r1)) by lia.
  rewrite (iota_axes_lookup n (Z.to_nat r2)) by lia.
  rewrite !Z2Nat.id by lia.
  destruct (Z.leb_spec 0 r1); [|lia]. destruct (Z.leb_spec 0 r2); [|lia]. simpl.
  f_equal. apply list_eq. intros i. unfold swapped.
  rewrite list_lookup_fmap.
  destruct (decide (i < n)%nat) as [Hi|Hi].
  - rewrite iota_axes_lookup by done. simpl.
    destruct (decide (i = Z.to_nat r2)) as [->|N2].
    + rewrite list_lookup_insert_eq
        by (rewrite length_insert, iota_axes_length; lia).
      rewrite Z2Nat.id by lia.
      destruct (Z.eqb_spec r2 r1); [congruence|].
      by rewrite Z.eqb_refl.
    + rewrite list_lookup_insert_ne by done.
      destruct (decide (i = Z.to_nat r1)) as [->|N1].
      * rewrite list_lookup_insert_eq by (rewrite iota_axes_length; lia).
        rewrite Z2Nat.id by lia. by rewrite Z.eqb_refl.
      * rewrite list_lookup_insert_ne by done.
        rewrite iota_axes_lookup by done.
        destruct (Z.eqb_spec (Z.of_nat i) r1); [lia|].
        destruct (Z.eqb_spec (Z.of_nat i) r2); [lia|]. done.
  - rewrite (lookup_ge_None_2 (iota_axes n)) by (rewrite iota_axes_length; lia).
    simpl. apply lookup_ge_None_2.
    rewrite !length_insert, iota_axes_length. lia.
Qed.

Lemma swapped_lookup (n : nat) (r1 r2 : Z) (i : nat) :
  (i < n)%nat ->
  swapped n r1 r2 !! i
  = Some (if Z.of_nat i =? r1 then r2 else if Z.of_nat i =? r2 then r1 else Z.of_nat i).
Proof.
  intros H. unfold swapped. rewrite list_lookup_fmap.
  by rewrite iota_axes_lookup.
Qed.

Lemma swapped_Permutation (n : nat) (r1 r2 : Z) :
  0 <= r1 < Z.of_nat n -> 0 <= r2 < Z.of_nat n ->
  swapped n r1 r2 ≡ₚ iota_axes n.
Proof.
  intros H1 H2. unfold swapped.
  set (f := fun i => if i =? r1 then r2 else if i =? r2 then r1 else i).
  assert (forall i, f (f i) = i) as Invol.
  { intros i. unfold f.
    destruct (Z.eqb_spec i r1), (Z.eqb_spec i r2); subst;
      repeat (match goal with
              | |- context [?a =? ?b] => destruct (Z.eqb_spec a b)
              end; try lia); lia. }
  assert (NoDup (iota_axes n)) as ND.
  { rewrite iota_axes_seq. apply NoDup_fmap_2; [apply _ | apply NoDup_seq]. }
  assert (forall i, i ∈ iota_axes n <-> 0 <= i < Z.of_nat n) as In.
  { intros i. rewrite iota_axes_seq, list_elem_of_fmap. split.
    - intros (k & -> & Hk). apply elem_of_seq in Hk. lia.
    - intros Hi. exists (Z.to_nat i). split; [lia|]. apply elem_of_seq. lia. }
  assert (forall i, 0 <= i < Z.of_nat n -> 0 <= f i < Z.of_nat n) as Range.
  { intros i Hi. unfold f.
    destruct (Z.eqb_spec i r1), (Z.eqb_spec i r2); lia. }
  apply NoDup_Permutation.
  - apply NoDup_fmap_2; [|done].
    intros a b Hab. rewrite <- (Invol a), <- (Invol b). by rewrite Hab.
  - done.
  - intros i. rewrite list_elem_of_fmap. split.
    + intros (k & -> & Hk). apply In, Range, In, Hk.
    + intros Hi. exists (f i). split; [by rewrite Invol|].
      apply In, Range, In, Hi.
Qed.

(** C8.  [swapAxes x axis1 axis2] resolves both axes against the rank
    of [x], a negative axis to [rank + axis]; when they resolve to the same
    index it returns [x] and leaves the graph as it was, in particular for
    axis [0] and axis [-rank]; otherwise it is [transpose] of [x] along
    the permutation of [0, rank) that exchanges the two resolved
    positions. *)
Theorem swapAxes_spec (newShape : NodeOp -> option Shape) (x : Expr)
    (axis1 axis2 r1 r2 : Z) (g : ExpressionGraph) :
  ShapeOps.axis (expr_shape x) axis1 = Ok r1 ->
  ShapeOps.axis (expr_shape x) axis2 = Ok r2 ->
  let rank := length (expr_shape x) in
  r1 = (if axis1 <? 0 then Z.of_nat rank + axis1 else axis1) /\
  r2 = (if axis2 <? 0 then Z.of_nat rank + axis2 else axis2) /\
  (r1 = r2 -> swapAxes newShape x axis1 axis2 g = Ok (x, g)) /\
  (r1 <> r2 ->
     swapAxes newShape x axis1 axis2 = transpose_axes newShape x (swapped rank r1 r2) /\
     transpose_axes newShape x (swapped rank r1 r2)
       = Expression newShape (TransposeNodeOp x (swapped rank r1 r2)) /\
     swapped rank r1 r2 ≡ₚ iota_axes rank /\
     swapped rank r1 r2 !! Z.to_nat r1 = Some r2 /\
     swapped rank r1 r2 !! Z.to_nat r2 = Some r1 /\
     (forall i : nat, (i < rank)%nat -> Z.of_nat i <> r1 -> Z.of_nat i <> r2 ->
                      swapped rank r1 r2 !! i = Some (Z.of_nat i))) /\
  ((1 <= rank)%nat ->
     swapAxes newShape x 0 (- Z.of_nat rank) g = Ok (x, g)).
Proof.
  intros A1 A2 rank.
  pose proof A1 as [B1 E1]%axis_Ok. pose proof A2 as [B2 E2]%axis_Ok.
  unfold ShapeOps.size in *. fold rank in B1, B2, E1, E2.
  split; [done|]. split; [done|]. split; [|split].
  - intros Heq. unfold swapAxes, bind. rewrite A1, A2. simpl.
    by rewrite Heq, Z.eqb_refl.
  - intros Hne. split; [|split; [done|split; [|split; [|split]]]].
    + unfold swapAxes. rewrite A1, A2.
      rewrite bind_lift_Ok. cbv beta. rewrite bind_lift_Ok. cbv beta.
      destruct (Z.eqb_spec r1 r2); [done|]. fold rank.
      rewrite swap_iota by done. by rewrite bind_lift_Ok.
    + by apply swapped_Permutation.
    + rewrite swapped_lookup by lia. rewrite Z2Nat.id by lia.
      by rewrite Z.eqb_refl.
    + rewrite swapped_lookup by lia. rewrite Z2Nat.id by lia.
      destruct (Z.eqb_spec r2 r1); [congruence|]. by rewrite Z.eqb_refl.
    + intros i Hi N1 N2. rewrite swapped_lookup by done.
      destruct (Z.eqb_spec (Z.of_nat i) r1); [done|].
      by destruct (Z.eqb_spec (Z.of_nat i) r2).
  - intros Hr. unfold swapAxes, bind.
    rewrite (axis_nonneg _ 0) by (fold rank; lia).
    rewrite axis_neg by (fold rank; lia). fold rank. simpl.
    by rewrite Nat.sub_diag.
Qed.

Lemma swapAxes_spec_witness :
  swapAxes Reference.newShape Examples.x234 (-3) 0 (Examples.gX false)
    = Ok (Examples.x234, Examples.gX false) /\
  swapAxes Reference.newShape Examples.x234 0 (-1)
    = Expression Reference.newShape (TransposeNodeOp Examples.x234 [2; 1; 0]).
Proof.
  split.
  - destruct (swapAxes_spec Reference.newShape Examples.x234 (-3) 0 0 0
                (Examples.gX false) eq_refl eq_refl) as (_ & _ & H & _).
    apply H. reflexivity.
  - destruct (swapAxes_spec Reference.newShape Examples.x234 0 (-1) 0 2
                (Examples.gX false) eq_refl eq_refl) as (_ & _ & _ & H & _).
    destruct H as (H1 & H2 & _); [lia|].
    rewrite H1. exact H2.
Defined.

(** ** softmax *)

Section SoftmaxFacts.

Variable newShape : NodeOp -> option Shape.

Lemma swapAxes_same (x : Expr) (axis1 axis2 r : Z) (g : ExpressionGraph) :
  ShapeOps.axis (expr_shape x) axis1 = Ok r ->
  ShapeOps.axis (expr_shape x) axis2 = Ok r ->
  swapAxes newShape x axis1 axis2 g = Ok (x, g).
Proof.
  intros A1 A2. unfold swapAxes, bind. rewrite A1, A2. simpl.
  by rewrite Z.eqb_refl.
Qed.

(** A successful [swapAxes] hands back its argument or a transpose of it,
    and adds no other node. *)
Lemma swapAxes_Ok (x : Expr) (axis1 axis2 : Z) g e g' :
  graph_wf newShape g ->
  swapAxes newShape x axis1 axis2 g = Ok (e, g') ->
  graph_wf newShape g' /\
  exists axes, grown g g' [TransposeNodeOp x axes] /\
               (e = x \/ op_of g' e = Some (TransposeNodeOp x axes)).
Proof.
  intros WF H. unfold swapAxes in H. run_inv H.
  destruct (x0 =? x1).
  - run_inv Hrun1. split; [done|]. exists [].
    split; [|by left].
    eapply grown_weaken; [apply sublist_nil_l | apply grown_refl].
  - run_inv Hrun1. unfold transpose_axes in Hrun0.
    destruct (Expression_Ok _ _ _ _ _ WF Hrun0) as (WF' & G & O & _).
    split; [done|]. exists x2. split; [done | by right].
Qed.

Lemma softmax_last (x : Expr) :
  softmax newShape x (-1) = Expression newShape (SoftmaxNodeOp x).
Proof. reflexivity. Qed.

(** Two units of fuel are all [softmax] ever uses. *)
Lemma softmax_fuel (fuel : nat) (a : Expr) (axis : Z) :
  (2 <= fuel)%nat -> softmax_rec newShape fuel a axis = softmax newShape a axis.
Proof.
  intros H. destruct fuel as [|[|fuel]]; [lia | lia |].
  unfold softmax. simpl. destruct (negb (axis =? -1)); [|done].
  destruct fuel; reflexivity.
Qed.

Lemma Expression_Failed op g f :
  Expression newShape op g = Failed f -> f = ShapeMismatch.
Proof.
  unfold Expression, add. destruct (newShape op); [|by intros [= <-]].
  by destruct (if hashcons g then list_find _ (tape g) else None) as [[? ?]|].
Qed.

Lemma swapAxes_Failed (x : Expr) (axis1 axis2 : Z) g f :
  swapAxes newShape x axis1 axis2 g = Failed f ->
  f = OutOfRange \/ f = ShapeMismatch.
Proof.
  unfold swapAxes, bind, lift, ShapeOps.axis, swap, transpose_axes.
  repeat match goal with
         | |- context [if ?c then _ else _] => destruct c
         | |- context [match ?l !! ?i with _ => _ end] => destruct (l !! i)
         end;
    try (intros [= <-]; by left); try done;
    intros H; right; by eapply Expression_Failed.
Qed.

(** [softmax] fails only where axis resolution or a node constructor
    does: the recursion bound is never reached. *)
Lemma softmax_Failed (a : Expr) (axis : Z) g f :
  softmax newShape a axis g = Failed f ->
  f = OutOfRange \/ f = ShapeMismatch.
Proof.
  unfold softmax. simpl. destruct (negb (axis =? -1)).
  - intros H. apply bind_Failed in H as [H|(x & g1 & _ & H)].
    { by eapply swapAxes_Failed. }
    apply bind_Failed in H as [H|(y & g2 & _ & H)].
    { right. by eapply Expression_Failed. }
    by eapply swapAxes_Failed.
  - intros H. right. by eapply Expression_Failed.
Qed.

End SoftmaxFacts.

(** C5.  For an axis argument other than [-1], [softmax a axis] is
    [swapAxes] to the last position, the softmax node (which has no axis
    argument) on the result, and [swapAxes] back; its one recursive call
    is the call for the last axis.  The nodes it adds to the graph are, in
    this order, at most a transpose of [a], one softmax node and a
    transpose of that softmax node. *)
Theorem softmax_axis_pipeline (newShape : NodeOp -> option Shape) (a : Expr)
    (axis : Z) :
  axis <> -1 ->
  softmax newShape a axis
  = (let* x := swapAxes newShape a axis (-1) in
     let* y := softmax newShape x (-1) in
     swapAxes newShape y axis (-1)) /\
  (forall x, softmax newShape x (-1) = Expression newShape (SoftmaxNodeOp x)) /\
  (forall fuel, (2 <= fuel)%nat ->
                softmax_rec newShape fuel a axis = softmax newShape a axis) /\
  (forall g, softmax newShape a axis g <> Failed OutOfFuel) /\
  (forall g e g',
     graph_wf newShape g ->
     softmax newShape a axis g = Ok (e, g') ->
     exists x y axes1 axes2,
       (x = a \/ op_of g' x = Some (TransposeNodeOp a axes1)) /\
       op_of g' y = Some (SoftmaxNodeOp x) /\
       (e = y \/ op_of g' e = Some (TransposeNodeOp y axes2)) /\
       grown g g' [TransposeNodeOp a axes1; SoftmaxNodeOp x; TransposeNodeOp y axes2]).
Proof.
  intros Hax.
  assert (softmax newShape a axis
          = (let* x := swapAxes newShape a axis (-1) in
             let* y := softmax newShape x (-1) in
             swapAxes newShape y axis (-1))) as Eq.
  { unfold softmax at 1. simpl.
    destruct (Z.eqb_spec axis (-1)); [done|]. reflexivity. }
  split; [done|]. split; [reflexivity|].
  split; [intros fuel Hf; by apply softmax_fuel|].
  split.
  { intros g H. by destruct (softmax_Failed _ _ _ _ _ H). }
  intros g e g' WF H. rewrite Eq in H. run_inv H.
  destruct (swapAxes_Ok _ _ _ _ _ _ _ WF Hrun) as (WF0 & axes1 & G0 & O0).
  rewrite softmax_last in Hrun1.
  destruct (Expression_Ok _ _ _ _ _ WF0 Hrun1) as (WF1 & G1 & O1 & _).
  destruct (swapAxes_Ok _ _ _ _ _ _ _ WF1 Hrun2) as (WF2 & axes2 & G2 & O2).
  exists x, x0, axes1, axes2. split; [|split; [|split]].
  - destruct O0 as [->|O0]; [by left|]. right.
    eapply op_of_grown; [exact G2|]. eapply op_of_grown; [exact G1|]. done.
  - eapply op_of_grown; [exact G2|]. done.
  - done.
  - apply (grown_trans _ _ _ [_] [_; _] G0).
    apply (grown_trans _ _ _ [_] [_] G1 G2).
Qed.

Lemma softmax_axis_pipeline_witness :
  softmax Reference.newShape Examples.x234 0
  = (let* x := swapAxes Reference.newShape Examples.x234 0 (-1) in
     let* y := softmax Reference.newShape x (-1) in
     swapAxes Reference.newShape y 0 (-1)).
Proof.
  destruct (softmax_axis_pipeline Reference.newShape Examples.x234 0) as [H _].
  - lia.
  - exact H.
Defined.

(** C10.  For [a] of rank [r >= 1], [softmax a (r - 1)] takes the branch
    for axes other than [-1], yet both [swapAxes] calls of that branch
    resolve [r - 1] and [-1] to the same index and hand back their
    argument: the call has the outcome of [softmax a (-1)], returns the
    softmax node of [a], and adds no transpose node to the graph. *)
Theorem softmax_last_axis_by_index (newShape : NodeOp -> option Shape)
    (a : Expr) (r : nat) (g : ExpressionGraph) :
  (1 <= r)%nat ->
  length (expr_shape a) = r ->
  graph_wf newShape g ->
  newShape (SoftmaxNodeOp a) = Some (expr_shape a) ->
  Z.of_nat r - 1 <> -1 /\
  softmax newShape a (Z.of_nat r - 1)
  = (let* x := swapAxes newShape a (Z.of_nat r - 1) (-1) in
     let* y := softmax newShape x (-1) in
     swapAxes newShape y (Z.of_nat r - 1) (-1)) /\
  softmax newShape a (Z.of_nat r - 1) g = softmax newShape a (-1) g /\
  exists e g',
    softmax newShape a (Z.of_nat r - 1) g = Ok (e, g') /\
    op_of g' e = Some (SoftmaxNodeOp a) /\
    grown g g' [SoftmaxNodeOp a] /\
    (forall n x axes, n ∈ drop (length (tape g)) (tape g') ->
                      node_op n <> TransposeNodeOp x axes).
Proof.
  intros Hr Hlen WF NS.
  assert (forall x : Expr, length (expr_shape x) = r -> forall g0,
            swapAxes newShape x (Z.of_nat r - 1) (-1) g0 = Ok (x, g0)) as Same.
  { intros x Hx g0. apply (swapAxes_same _ _ _ _ (Z.of_nat r - 1)).
    - replace (Z.of_nat r - 1) with (Z.of_nat (r - 1)) by lia.
      apply axis_nonneg. lia.
    - rewrite axis_last by lia. unfold ShapeOps.size. by rewrite Hx. }
  assert (softmax newShape a (Z.of_nat r - 1)
          = (let* x := swapAxes newShape a (Z.of_nat r - 1) (-1) in
             let* y := softmax newShape x (-1) in
             swapAxes newShape y (Z.of_nat r - 1) (-1))) as Eq.
  { unfold softmax at 1. simpl.
    destruct (Z.eqb_spec (Z.of_nat r - 1) (-1)); [lia|]. reflexivity. }
  destruct (Expression_returns newShape _ _ g NS) as (e & g' & Hrun).
  destruct (Expression_Ok _ _ _ _ _ WF Hrun) as (WF' & G & O & S).
  assert (expr_shape e = expr_shape a) as Se by congruence.
  assert (softmax newShape a (Z.of_nat r - 1) g = Ok (e, g')) as Res.
  { rewrite Eq. unfold bind at 1. rewrite (Same a Hlen).
    unfold bind at 1. rewrite softmax_last, Hrun.
    apply Same. by rewrite Se. }
  split; [lia|]. split; [done|]. split.
  { by rewrite Res, softmax_last, Hrun. }
  exists e, g'. split; [done|]. split; [done|]. split; [done|].
  intros n x axes Hn Hop.
  destruct G as [_ (new & E & Sub)].
  rewrite E, drop_app_length in Hn.
  assert (node_op n ∈ [SoftmaxNodeOp a]) as Hin.
  { eapply elem_of_sublist; [|exact Sub]. apply list_elem_of_fmap. eauto. }
  apply list_elem_of_singleton in Hin. congruence.
Qed.

Lemma softmax_last_axis_by_index_witness :
  softmax Reference.newShape Examples.x234 2 (Examples.gX true)
  = softmax Reference.newShape Examples.x234 (-1) (Examples.gX true).
Proof.
  apply (softmax_last_axis_by_index Reference.newShape Examples.x234 3
           (Examples.gX true)).
  - lia.
  - reflexivity.
  - apply graph_wf_gX.
  - reflexivity.
Defined.

(** ** softmax with a mask *)

(** The literal [-99999999.f] is the float [-1e8]. *)
Lemma logMask_scalar :
  Float32.opp (Float32.of_Z 99999999) = S754_finite true 12500000 3 /\
  Float32.to_Z (Float32.opp (Float32.of_Z 99999999)) = Some (-100000000).
Proof. split; reflexivity. Qed.

(** Through the three scalar nodes of [logMask], a mask element 0 becomes
    [-1e8] and a mask element 1 becomes [-0]. *)
Lemma logMask_values (m n m1 : Expr) (f1 f2 f3 : float -> float) :
  elementwise (NegNodeOp m) = Some f1 ->
  elementwise (ScalarAddNodeOp n (Float32.of_Z 1)) = Some f2 ->
  elementwise (ScalarMultNodeOp m1 (Float32.opp (Float32.of_Z 99999999))) = Some f3 ->
  Float32.to_Z (f3 (f2 (f1 (Float32.of_Z 0)))) = Some (-100000000) /\
  f3 (f2 (f1 (Float32.of_Z 1))) = S754_zero true.
Proof. intros [= <-] [= <-] [= <-]. split; reflexivity. Qed.

(** C4.  [softmax a m axis] is [softmax (a + (1 - m) * -99999999.f) axis],
    where the scalar is the float [-1e8]: it negates the mask, adds 1,
    multiplies by the scalar, adds the result to [a], and calls the
    unmasked [softmax] on that sum.  The mask reaches the softmax node
    through these element-wise nodes only. *)
Theorem softmax_mask_composition (newShape : NodeOp -> option Shape)
    (a zeroOneMask : Expr) (axis : Z) (g : ExpressionGraph) :
  graph_wf newShape g ->
  let c := Float32.opp (Float32.of_Z 99999999) in
  Float32.to_Z c = Some (-100000000) /\
  softmax_mask newShape a zeroOneMask axis g
  = (let* neg := Expression newShape (NegNodeOp zeroOneMask) in
     let* m1 := Expression newShape (ScalarAddNodeOp neg (Float32.of_Z 1)) in
     let* logMask := Expression newShape (ScalarMultNodeOp m1 c) in
     let* s := Expression newShape (PlusNodeOp a logMask) in
     softmax newShape s axis) g /\
  (forall e g',
     softmax_mask newShape a zeroOneMask axis g = Ok (e, g') ->
     exists neg m1 logMask s gs,
       grown g gs [NegNodeOp zeroOneMask; ScalarAddNodeOp neg (Float32.of_Z 1);
                   ScalarMultNodeOp m1 c; PlusNodeOp a logMask] /\
       op_of gs neg = Some (NegNodeOp zeroOneMask) /\
       op_of gs m1 = Some (ScalarAddNodeOp neg (Float32.of_Z 1)) /\
       op_of gs logMask = Some (ScalarMultNodeOp m1 c) /\
       op_of gs s = Some (PlusNodeOp a logMask) /\
       softmax newShape s axis gs = Ok (e, g')).
Proof.
  intros WF c.
  assert (softmax_mask newShape a zeroOneMask axis g
          = (let* neg := Expression newShape (NegNodeOp zeroOneMask) in
             let* m1 := Expression newShape (ScalarAddNodeOp neg (Float32.of_Z 1)) in
             let* logMask := Expression newShape (ScalarMultNodeOp m1 c) in
             let* s := Expression newShape (PlusNodeOp a logMask) in
             softmax newShape s axis) g) as Eq.
  { unfold softmax_mask, op_minus_float_expr, op_mult_expr_float, op_plus,
      op_neg, bind.
    destruct (Expression newShape (NegNodeOp zeroOneMask) g) as [[neg g1]|]; [|done].
    destruct (Expression newShape (ScalarAddNodeOp neg _) g1) as [[m1 g2]|]; done. }
  split; [reflexivity|]. split; [exact Eq|].
  intros e g' H. rewrite Eq in H. run_inv H.
  destruct (Expression_Ok _ _ _ _ _ WF Hrun) as (WF1 & G1 & O1 & _).
  destruct (Expression_Ok _ _ _ _ _ WF1 Hrun1) as (WF2 & G2 & O2 & _).
  destruct (Expression_Ok _ _ _ _ _ WF2 Hrun0) as (WF3 & G3 & O3 & _).
  destruct (Expression_Ok _ _ _ _ _ WF3 Hrun2) as (WF4 & G4 & O4 & _).
  exists x, x0, x1, x2, g3. split; [|split; [|split; [|split; [|split]]]].
  - apply (grown_trans _ _ _ [_] [_; _; _] G1).
    apply (grown_trans _ _ _ [_] [_; _] G2).
    apply (grown_trans _ _ _ [_] [_] G3 G4).
  - eauto using op_of_grown.
  - eauto using op_of_grown.
  - eauto using op_of_grown.
  - done.
  - done.
Qed.

Lemma softmax_mask_composition_witness :
  exists e g',
    softmax_mask Reference.newShape Examples.x234 Examples.x234 (-1)
      (Examples.gX false) = Ok (e, g') /\
    expr_id e = 5%nat.
Proof.
  destruct (softmax_mask_composition Reference.newShape Examples.x234
              Examples.x234 (-1) (Examples.gX false) (graph_wf_gX false))
    as (_ & Eq & _).
  eexists _, _. rewrite Eq. split; reflexivity.
Defined.

(** ** weighted_average *)







(** ** List-form activations *)

(** C9.  The list forms of [plus], [swish], [sigmoid], [relu],
    [leakyrelu] and [prelu] abort with "Not implemented" on every input and
    in every graph; none of them ever returns an expression. *)
Theorem list_forms_not_implemented (nodes : list Expr) (alpha : float)
    (g : ExpressionGraph) :
  let stubs := [plus_list nodes; swish_list nodes; sigmoid_list nodes;
                relu_list nodes; leakyrelu_list nodes; prelu_list nodes alpha] in
  Forall (fun stub : M Expr =>
            stub g = Failed (Aborted "Not implemented") /\
            (forall e g', stub g <> Ok (e, g')) /\
            (forall f, stub g = Failed f -> errorKind f = Some ConfigurationErrorKind))
         stubs.
Proof.
  simpl. repeat constructor; try discriminate; by intros f [= <-].
Qed.

(** ** dot *)

Section DispatchFacts.

Variable newShape : NodeOp -> option Shape.
Variable argOrder : ArgOrder.

(** The two arguments run one after the other, in the order of
    [argOrder]. *)
Lemma args2_Ok {A B} (ma : M A) (mb : M B) g x y g' :
  args2 argOrder ma mb g = Ok ((x, y), g') ->
  match argOrder with
  | LeftToRight => exists g1, ma g = Ok (x, g1) /\ mb g1 = Ok (y, g')
  | RightToLeft => exists g1, mb g = Ok (y, g1) /\ ma g1 = Ok (x, g')
  end.
Proof.
  unfold args2. destruct argOrder; intros H;
    apply bind_Ok in H as (a & g1 & Ha & H);
    apply bind_Ok in H as (b & g2 & Hb & H);
    unfold ret in H; inversion H; subst; eauto.
Qed.

Lemma clipped_grown a c g g' l e :
  grown g g' l -> clipped a c g e -> clipped a c g' e.
Proof.
  unfold clipped. destruct (Float32.eqb _ _); [done|]. apply op_of_grown.
Qed.

Lemma clip_Ok (a : Expr) (c : float) g e g' :
  graph_wf newShape g ->
  clip newShape a c g = Ok (e, g') ->
  graph_wf newShape g' /\ grown g g' [ClipNodeOp a c] /\ clipped a c g' e.
Proof.
  intros WF. unfold clip, clipped.
  destruct (Float32.eqb c (Float32.of_Z 0)).
  - intros [= <- <-]. split; [done|]. split; [|done].
    eapply grown_weaken; [apply sublist_nil_l | apply grown_refl].
  - intros H. destruct (Expression_Ok _ _ _ _ _ WF H) as (?&?&?&?). done.
Qed.

Lemma maybe_transposed_grown tr a g g' l e :
  grown g g' l -> maybe_transposed tr a g e -> maybe_transposed tr a g' e.
Proof.
  unfold maybe_transposed. destruct tr; [|done].
  intros G (axes & O). exists axes. by eapply op_of_grown.
Qed.

(** The operand [quantize(tr ? transpose(a) : a, c)] of the quantized
    path. *)
Lemma quantized_operand_Ok (tr : bool) (a : Expr) (c : float) g q g' :
  graph_wf newShape g ->
  (let* ta := (if tr then transpose newShape a else ret a) in
   int16_quantize newShape ta c) g = Ok (q, g') ->
  graph_wf newShape g' /\
  exists ta l,
    grown g g' l /\
    maybe_transposed tr a g' ta /\
    op_of g' q = Some (Int16QuantizeNodeOp ta c).
Proof.
  intros WF H. apply bind_Ok in H as (ta & g1 & Ht & Hq).
  unfold int16_quantize in Hq.
  destruct tr.
  - unfold transpose in Ht.
    destruct (Expression_Ok _ _ _ _ _ WF Ht) as (WF1 & G1 & O1 & _).
    destruct (Expression_Ok _ _ _ _ _ WF1 Hq) as (WF2 & G2 & O2 & _).
    split; [done|]. eexists ta, _.
    split; [eapply grown_trans; eassumption|]. split; [|done].
    eexists. by eapply op_of_grown.
  - apply ret_Ok in Ht as [-> ->].
    destruct (Expression_Ok _ _ _ _ _ WF Hq) as (WF2 & G2 & O2 & _).
    split; [done|]. eexists a, _. done.
Qed.

End DispatchFacts.

Lemma bind_gets {A B} (f : ExpressionGraph -> A) (k : A -> M B) g :
  bind (gets f) k g = k (f g) g.
Proof. reflexivity. Qed.

Lemma dot_unfold newShape argOrder a b transA transB scale g :
  dot newShape argOrder a b transA transB scale g
  = (if optimized g && DeviceType_eqb (device g) cpu
     then
       let* (qa, qb) := args2 argOrder
           (let* ta := (if transA then transpose newShape a else ret a) in
            int16_quantize newShape ta (backendClip g))
           (let* tb := (if negb transB then transpose newShape b else ret b) in
            int16_quantize newShape tb (backendClip g)) in
       int16_dot newShape qa qb scale
     else
       let* (ac, bc) := args2 argOrder (clip newShape a (backendClip g))
                                       (clip newShape b (backendClip g)) in
       Expression newShape (DotNodeOp ac bc transA transB scale)) g.
Proof.
  unfold dot. rewrite bind_gets. cbv beta. rewrite bind_gets. cbv beta.
  rewrite bind_gets. cbv beta. by destruct transB.
Qed.

(** C2.  [dot] takes the quantized path exactly when the graph is
    optimized and on the CPU: each operand is quantized with the clip value
    of the backend, [a] transposed first when [transA] is set and [b] when
    [transB] is not, and the result is the int16 product of the two.
    Otherwise the result is a [DotNodeOp] with the flags and scale of the
    call, over [a] and [b] themselves when the clip value is zero and over
    their clip nodes when it is not.  Both hold for either evaluation
    order of the two operands. *)
Theorem dot_dispatch (newShape : NodeOp -> option Shape) (argOrder : ArgOrder)
    (a b : Expr) (transA transB : bool) (scale : float) (g : ExpressionGraph) :
  graph_wf newShape g ->
  let c := backendClip g in
  let reduced := optimized g && DeviceType_eqb (device g) cpu in
  (reduced = true <-> optimized g = true /\ device g = cpu) /\
  (reduced = true ->
     forall e g',
       dot newShape argOrder a b transA transB scale g = Ok (e, g') ->
       exists ta tb qa qb,
         maybe_transposed transA a g' ta /\
         maybe_transposed (negb transB) b g' tb /\
         op_of g' qa = Some (Int16QuantizeNodeOp ta c) /\
         op_of g' qb = Some (Int16QuantizeNodeOp tb c) /\
         op_of g' e = Some (Int16DotNodeOp qa qb scale)) /\
  (reduced = false ->
     forall e g',
       dot newShape argOrder a b transA transB scale g = Ok (e, g') ->
       exists ac bc,
         (if Float32.eqb c (Float32.of_Z 0)
          then ac = a /\ bc = b
          else op_of g' ac = Some (ClipNodeOp a c) /\
               op_of g' bc = Some (ClipNodeOp b c)) /\
         op_of g' e = Some (DotNodeOp ac bc transA transB scale)).
Proof.
  intros WF c reduced. split; [|split].
  - unfold reduced. rewrite andb_true_iff.
    by destruct (device g); simpl; intuition.
  - intros Hred e g' H. rewrite dot_unfold in H. fold reduced in H.
    rewrite Hred in H. fold c in H.
    apply bind_Ok in H as ([qa qb] & g1 & Hargs & Hdot).
    apply args2_Ok in Hargs. unfold int16_dot in Hdot.
    destruct argOrder; destruct Hargs as (g0 & H1 & H2).
    + destruct (quantized_operand_Ok _ _ _ _ _ _ _ WF H1)
        as (WF0 & ta & l1 & G1 & T1 & Q1).
      destruct (quantized_operand_Ok _ _ _ _ _ _ _ WF0 H2)
        as (WF1 & tb & l2 & G2 & T2 & Q2).
      destruct (Expression_Ok _ _ _ _ _ WF1 Hdot) as (WF2 & G3 & O3 & _).
      exists ta, tb, qa, qb.
      split; [eauto using maybe_transposed_grown|].
      split; [eauto using maybe_transposed_grown|].
      split; [eauto using op_of_grown|].
      split; [eauto using op_of_grown|]. done.
    + destruct (quantized_operand_Ok _ _ _ _ _ _ _ WF H1)
        as (WF0 & tb & l1 & G1 & T1 & Q1).
      destruct (quantized_operand_Ok _ _ _ _ _ _ _ WF0 H2)
        as (WF1 & ta & l2 & G2 & T2 & Q2).
      destruct (Expression_Ok _ _ _ _ _ WF1 Hdot) as (WF2 & G3 & O3 & _).
      exists ta, tb, qa, qb.
      split; [eauto using maybe_transposed_grown|].
      split; [eauto using maybe_transposed_grown|].
      split; [eauto using op_of_grown|].
      split; [eauto using op_of_grown|]. done.
  - intros Hred e g' H. rewrite dot_unfold in H. fold reduced in H.
    rewrite Hred in H. fold c in H.
    apply bind_Ok in H as ([ac bc] & g1 & Hargs & Hdot).
    apply args2_Ok in Hargs.
    assert (exists l, grown g g1 l /\ graph_wf newShape g1 /\
                      clipped a c g1 ac /\ clipped b c g1 bc)
      as (l & G & WF1 & Ca & Cb).
    { destruct argOrder; destruct Hargs as (g0 & H1 & H2).
      - destruct (clip_Ok _ _ _ _ _ _ WF H1) as (WF0 & G1 & C1).
        destruct (clip_Ok _ _ _ _ _ _ WF0 H2) as (WF1 & G2 & C2).
        eexists. split; [eapply grown_trans; eassumption|].
        eauto using clipped_grown.
      - destruct (clip_Ok _ _ _ _ _ _ WF H1) as (WF0 & G1 & C1).
        destruct (clip_Ok _ _ _ _ _ _ WF0 H2) as (WF1 & G2 & C2).
        eexists. split; [eapply grown_trans; eassumption|].
        eauto using clipped_grown. }
    destruct (Expression_Ok _ _ _ _ _ WF1 Hdot) as (WF2 & G3 & O3 & _).
    exists ac, bc. split; [|done].
    pose proof (clipped_grown _ _ _ _ _ _ G3 Ca) as Ca'.
    pose proof (clipped_grown _ _ _ _ _ _ G3 Cb) as Cb'.
    unfold clipped in Ca', Cb'.
    by destruct (Float32.eqb c (Float32.of_Z 0)).
Qed.

Lemma dot_dispatch_witness :
  (exists e g' qa qb,
     dot Reference.newShape RightToLeft AffineExamples.a32 AffineExamples.b64
       false false Examples.one (AffineExamples.gAffine true cpu Examples.one)
     = Ok (e, g') /\
     op_of g' e = Some (Int16DotNodeOp qa qb Examples.one)) /\
  (exists e g',
     dot Reference.newShape RightToLeft AffineExamples.a32 AffineExamples.b64
       false false Examples.one (AffineExamples.gAffine true gpu Examples.zero)
     = Ok (e, g') /\
     op_of g' e = Some (DotNodeOp AffineExamples.a32 AffineExamples.b64
                          false false Examples.one)).
Proof.
  split.
  - destruct (dot_dispatch Reference.newShape RightToLeft AffineExamples.a32
                AffineExamples.b64 false false Examples.one
                (AffineExamples.gAffine true cpu Examples.one)
                (graph_wf_gAffine true cpu Examples.one)) as (_ & H & _).
    eexists _, _. 
    destruct (H eq_refl _ _ eq_refl) as (ta & tb & qa & qb & _ & _ & _ & _ & O).
    exists qa, qb. split; [reflexivity | exact O].
  - destruct (dot_dispatch Reference.newShape RightToLeft AffineExamples.a32
                AffineExamples.b64 false false Examples.one
                (AffineExamples.gAffine true gpu Examples.zero)
                (graph_wf_gAffine true gpu Examples.zero)) as (_ & _ & H).
    eexists _, _.
    destruct (H eq_refl _ _ eq_refl) as (ac & bc & C & O).
    simpl in C. destruct C as [-> ->]. split; [reflexivity | exact O].
Defined.

(** ** Rows of a matrix view, in [int] *)

Lemma to_int_small (z : Z) : - 2 ^ 31 <= z < 2 ^ 31 -> to_int z = z.
Proof. intros H. unfold to_int. rewrite Z.mod_small by lia. lia. Qed.

Lemma to_int_range (z : Z) : - 2 ^ 31 <= to_int z < 2 ^ 31.
Proof.
  unfold to_int. pose proof (Z.mod_pos_bound (z + 2 ^ 31) (2 ^ 32)). lia.
Qed.

(** Past the range the value wraps around: [2^31] is read as [-2^31]
    and [2^32 + z] as [z]. *)
Lemma to_int_wraps (z : Z) :
  to_int (z + 2 ^ 32) = to_int z /\ to_int (2 ^ 31) = - 2 ^ 31.
Proof.
  split; [|reflexivity]. unfold to_int.
  replace (z + 2 ^ 32 + 2 ^ 31) with (z + 2 ^ 31 + 1 * 2 ^ 32) by lia.
  by rewrite Z.mod_add.
Qed.

Lemma elements_pos (s : Shape) :
  Forall (fun d => 0 < d) s -> 0 < ShapeOps.elements s.
Proof.
  induction 1 as [|d s Hd _ IH]; [done|].
  change (0 < d * ShapeOps.elements s). lia.
Qed.

Lemma int_shape_elements (s : Shape) :
  int_shape s -> to_int (ShapeOps.elements s) = ShapeOps.elements s.
Proof.
  intros [Hd Hb]. apply to_int_small. pose proof (elements_pos s Hd). lia.
Qed.

Lemma at_last (init : Shape) (last : Z) :
  ShapeOps.at_ (init ++ [last]) (-1) = Ok last.
Proof.
  change (-1) with (- Z.of_nat 1). apply at_neg.
  - rewrite length_app. simpl. lia.
  - rewrite length_app. simpl.
    replace (length init + 1 - 1)%nat with (length init) by lia.
    by rewrite lookup_app_r, Nat.sub_diag.
Qed.

Lemma int_shape_snoc (init : Shape) (last : Z) :
  int_shape (init ++ [last]) ->
  0 < last /\ 0 < ShapeOps.elements init /\
  ShapeOps.elements (init ++ [last]) = ShapeOps.elements init * last /\
  ShapeOps.elements init * last < 2 ^ 31.
Proof.
  intros [Hd Hb]. apply Forall_app in Hd as [Hi Hl].
  apply Forall_inv in Hl.
  assert (ShapeOps.elements (init ++ [last]) = ShapeOps.elements init * last) as E.
  { rewrite elements_app. unfold ShapeOps.elements at 2. simpl. lia. }
  rewrite E in Hb. split; [done|]. split; [by apply elements_pos|]. done.
Qed.

(** For a shape within the range of [int] the row count is the product
    of the leading dimensions. *)
Lemma shape_rows_snoc (init : Shape) (last : Z) :
  int_shape (init ++ [last]) ->
  shape_rows (init ++ [last]) = Ok (ShapeOps.elements init).
Proof.
  intros Hs. destruct (int_shape_snoc _ _ Hs) as (Hl & Hi & E & Hb).
  unfold shape_rows. rewrite at_last. simpl.
  destruct (Z.eqb_spec last 0); [lia|].
  rewrite int_shape_elements, E by done.
  rewrite Z.quot_mul by done. f_equal. apply to_int_small. nia.
Qed.

(** Where the element count leaves the range it wraps, and the row count
    is the quotient of what is left: for [65536 x 65536 x 2] the count
    [2^33] is held as 0. *)
Lemma shape_rows_wraps :
  shape_rows [65536; 65536; 2] = Ok 0 /\
  shape_rows [65536; 65537; 1] = Ok 65536.
Proof. split; reflexivity. Qed.

Lemma shape_rows_snoc_inv (s init : Shape) (last rows : Z) :
  shape_rows s = Ok rows ->
  s = init ++ [last] -> int_shape s ->
  rows = ShapeOps.elements init.
Proof.
  intros H -> Hs. rewrite shape_rows_snoc in H by done. by injection H.
Qed.

(** ** affine *)

Section AffineFacts.

Variable newShape : NodeOp -> option Shape.
Variable argOrder : ArgOrder.
Variable Shape_hash : Shape -> Z.
Variable hash_combine_size_t : Z -> Z -> Z.
Variable hash_combine_bool : Z -> bool -> Z.
Variable hash_combine_int : Z -> Z -> Z.
Variable elapsed : Z -> Z.

Lemma affine_hash_fingerprint (a b bias : Expr) (transA transB : bool) :
  affine_hash Shape_hash hash_combine_size_t hash_combine_bool a b bias transA transB
  = Ok (fingerprint Shape_hash hash_combine_size_t hash_combine_bool
          (expr_shape a) (expr_shape b) (expr_shape bias) transA transB).
Proof. unfold affine_hash. by rewrite !sh_quot. Qed.

Lemma graph_wf_tape g g' :
  tape g' = tape g -> graph_wf newShape g -> graph_wf newShape g'.
Proof. intros E WF i n. rewrite E. apply WF. Qed.

Lemma rec_Ok hash e stop g e' g' :
  rec hash e stop g = Ok (e', g') ->
  e' = e /\ tape g' = tape g /\ grown g g' [] /\
  recorded g' !! expr_id e = Some (hash, stop).
Proof.
  unfold rec. intros H. apply bind_Ok in H as (u & g1 & Hrec & Hret).
  apply ret_Ok in Hret as [-> ->].
  destruct (record_Ok _ _ _ _ _ _ Hrec) as (T & C & R).
  split; [done|]. split; [done|]. split; [|done].
  split; [done|]. exists []. by rewrite app_nil_r.
Qed.

(** A run of [rec] changes nothing an invariant of the tape can see. *)
Lemma rec_Ok_wf hash e stop g e' g' :
  graph_wf newShape g ->
  rec hash e stop g = Ok (e', g') ->
  e' = e /\ graph_wf newShape g' /\ grown g g' [] /\
  recorded g' !! expr_id e = Some (hash, stop).
Proof.
  intros WF H. destruct (rec_Ok _ _ _ _ _ _ H) as (-> & T & G & R).
  eauto using graph_wf_tape.
Qed.

(** The first operand of the first candidate: as in [dot], with the
    nodes it creates tagged. *)
Lemma alg1_operand_Ok (tr : bool) (a : Expr) (c : float) (hash1 : Z) g q g' :
  graph_wf newShape g ->
  (let* ta := (if tr
               then let* t := transpose newShape a in rec hash1 t false
               else ret a) in
   let* q := int16_quantize newShape ta c in
   rec hash1 q false) g = Ok (q, g') ->
  graph_wf newShape g' /\
  exists ta l,
    grown g g' l /\
    maybe_transposed tr a g' ta /\
    op_of g' q = Some (Int16QuantizeNodeOp ta c).
Proof.
  intros WF H. apply bind_Ok in H as (ta & g1 & Ht & H).
  apply bind_Ok in H as (q0 & g2 & Hq & Hr).
  unfold int16_quantize in Hq.
  assert (graph_wf newShape g1 /\ exists l, grown g g1 l /\ maybe_transposed tr a g1 ta)
    as (WF1 & l1 & G1 & T1).
  { destruct tr.
    - apply bind_Ok in Ht as (t & g0 & Ht & Hrt). unfold transpose in Ht.
      destruct (Expression_Ok _ _ _ _ _ WF Ht) as (WF0 & G0 & O0 & _).
      destruct (rec_Ok_wf _ _ _ _ _ _ WF0 Hrt) as (-> & WF1 & G1 & _).
      split; [done|]. eexists. split; [eapply grown_trans; eassumption|].
      eexists. by eapply op_of_grown.
    - apply ret_Ok in Ht as [-> ->]. split; [done|].
      exists []. split; [apply grown_refl | done]. }
  destruct (Expression_Ok _ _ _ _ _ WF1 Hq) as (WF2 & G2 & O2 & _).
  destruct (rec_Ok_wf _ _ _ _ _ _ WF2 Hr) as (-> & WF3 & G3 & _).
  split; [done|]. exists ta. eexists. split.
  { eapply grown_trans; [exact G1|]. eapply grown_trans; eassumption. }
  split.
  - eapply maybe_transposed_grown; [exact G3|].
    eapply maybe_transposed_grown; [exact G2|]. done.
  - by eapply op_of_grown.
Qed.

(** The first candidate builds the quantized product: both operands
    quantized with [c], then the int16 affine node over them and the bias,
    tagged as the last node of the candidate. *)
Lemma alg1_Ok (a b bias : Expr) (transA transB : bool) (scale c : float)
    (hash1 : Z) g e g' :
  graph_wf newShape g ->
  alg1 newShape argOrder a b bias transA transB scale c hash1 g = Ok (e, g') ->
  graph_wf newShape g' /\
  exists ta tb qa qb,
    maybe_transposed transA a g' ta /\
    maybe_transposed (negb transB) b g' tb /\
    op_of g' qa = Some (Int16QuantizeNodeOp ta c) /\
    op_of g' qb = Some (Int16QuantizeNodeOp tb c) /\
    op_of g' e = Some (Int16AffineNodeOp [qa; qb; bias] scale) /\
    recorded g' !! expr_id e = Some (hash1, true).
Proof.
  intros WF H. unfold alg1 in H.
  apply bind_Ok in H as ([qa qb] & g1 & Hargs & H).
  apply bind_Ok in H as (r & g2 & Haff & Hrec).
  unfold int16_affine in Haff.
  assert ((let* tb := (if transB then ret b else transpose newShape b) in
           int16_quantize newShape tb c)
          = (let* tb := (if negb transB then transpose newShape b else ret b) in
             int16_quantize newShape tb c)) as Eb by (by destruct transB).
  rewrite Eb in Hargs. clear Eb.
  apply args2_Ok in Hargs.
  assert (graph_wf newShape g1 /\ exists ta tb l,
            grown g g1 l /\
            maybe_transposed transA a g1 ta /\
            maybe_transposed (negb transB) b g1 tb /\
            op_of g1 qa = Some (Int16QuantizeNodeOp ta c) /\
            op_of g1 qb = Some (Int16QuantizeNodeOp tb c))
    as (WF1 & ta & tb & l & G & Ta & Tb & Qa & Qb).
  { destruct argOrder; destruct Hargs as (g0 & H1 & H2).
    - destruct (alg1_operand_Ok _ _ _ _ _ _ _ WF H1)
        as (WF0 & ta & l1 & G1 & T1 & Q1).
      destruct (quantized_operand_Ok _ _ _ _ _ _ _ WF0 H2)
        as (WF1 & tb & l2 & G2 & T2 & Q2).
      split; [done|]. exists ta, tb. eexists.
      split; [eapply grown_trans; eassumption|].
      eauto 6 using maybe_transposed_grown, op_of_grown.
    - destruct (quantized_operand_Ok _ _ _ _ _ _ _ WF H1)
        as (WF0 & tb & l1 & G1 & T1 & Q1).
      destruct (alg1_operand_Ok _ _ _ _ _ _ _ WF0 H2)
        as (WF1 & ta & l2 & G2 & T2 & Q2).
      split; [done|]. exists ta, tb. eexists.
      split; [eapply grown_trans; eassumption|].
      eauto 6 using maybe_transposed_grown, op_of_grown. }
  destruct (Expression_Ok _ _ _ _ _ WF1 Haff) as (WF2 & G2 & O2 & _).
  destruct (rec_Ok_wf _ _ _ _ _ _ WF2 Hrec) as (-> & WF3 & G3 & R).
  split; [done|]. exists ta, tb, qa, qb.
  assert (grown g1 g' ([Int16AffineNodeOp [qa; qb; bias] scale] ++ [])) as G'
    by (by eapply grown_trans).
  split; [eauto using maybe_transposed_grown|].
  split; [eauto using maybe_transposed_grown|].
  split; [eauto using op_of_grown|].
  split; [eauto using op_of_grown|].
  split; [eauto using op_of_grown | done].
Qed.

(** The tag a freshly clipped operand gets: the expression is handed
    on either way, and no node is added. *)
Lemma tag_if_new_Ok (ac a : Expr) (hash2 : Z) g e g' :
  graph_wf newShape g ->
  (if negb (expr_eqb ac a) then rec hash2 ac false else ret ac) g = Ok (e, g') ->
  e = ac /\ graph_wf newShape g' /\ grown g g' [].
Proof.
  intros WF H. destruct (negb (expr_eqb ac a)).
  - destruct (rec_Ok_wf _ _ _ _ _ _ WF H) as (-> & WF' & G & _). done.
  - apply ret_Ok in H as [-> ->]. split; [done|]. split; [done|].
    apply grown_refl.
Qed.

(** The second candidate builds the general product: the operands
    clipped with [c], a column of ones with one row per row of the first
    operand, and the affine node over the four inputs, tagged as the last
    node of the candidate. *)
Lemma alg2_Ok (a b bias : Expr) (transA transB : bool) (scale c : float)
    (hash2 : Z) g e g' :
  graph_wf newShape g ->
  alg2 newShape a b bias transA transB scale c hash2 g = Ok (e, g') ->
  graph_wf newShape g' /\
  exists ac bc rows ones,
    clipped a c g' ac /\
    clipped b c g' bc /\
    shape_rows (expr_shape ac) = Ok rows /\
    op_of g' ones = Some (ConstantNode [rows; 1] inits_ones) /\
    op_of g' e = Some (AffineNodeOp [ac; bc; bias; ones] transA transB scale) /\
    grown g g' [ClipNodeOp a c; ClipNodeOp b c;
                ConstantNode [rows; 1] inits_ones;
                AffineNodeOp [ac; bc; bias; ones] transA transB scale] /\
    recorded g' !! expr_id e = Some (hash2, true).
Proof.
  intros WF H. unfold alg2 in H.
  apply bind_Ok in H as (ac0 & g1 & Hca & H).
  apply bind_Ok in H as (ac & g2 & Hta & H).
  apply bind_Ok in H as (bc0 & g3 & Hcb & H).
  apply bind_Ok in H as (bc & g4 & Htb & H).
  apply bind_Ok in H as (rows & g5 & Hrows & H).
  apply lift_Ok in Hrows as [Hrows ->].
  apply bind_Ok in H as (ones & g5 & Hones & H).
  apply bind_Ok in H as (r & g6 & Haff & Hrec).
  unfold graph_ones in Hones.
  destruct (clip_Ok _ _ _ _ _ _ WF Hca) as (WF1 & G1 & C1).
  destruct (tag_if_new_Ok _ _ _ _ _ _ WF1 Hta) as (-> & WF2 & G2).
  destruct (clip_Ok _ _ _ _ _ _ WF2 Hcb) as (WF3 & G3 & C3).
  destruct (tag_if_new_Ok _ _ _ _ _ _ WF3 Htb) as (-> & WF4 & G4).
  destruct (Expression_Ok _ _ _ _ _ WF4 Hones) as (WF5 & G5 & O5 & _).
  destruct (Expression_Ok _ _ _ _ _ WF5 Haff) as (WF6 & G6 & O6 & _).
  destruct (rec_Ok_wf _ _ _ _ _ _ WF6 Hrec) as (-> & WF7 & G7 & R).
  pose proof (grown_trans _ _ _ _ _ G1 G2) as G12.
  pose proof (grown_trans _ _ _ _ _ G3 G4) as G34.
  pose proof (grown_trans _ _ _ _ _ G5 (grown_trans _ _ _ _ _ G6 G7)) as G57.
  pose proof (grown_trans _ _ _ _ _ G34 G57) as G37.
  pose proof (grown_trans _ _ _ _ _ G6 G7) as G67.
  split; [done|]. exists ac0, bc0, rows, ones.
  split; [eauto using clipped_grown|].
  split; [eauto using clipped_grown|].
  split; [done|].
  split; [eauto using op_of_grown|].
  split; [eauto using op_of_grown|].
  split; [|done].
  apply (grown_trans _ _ _ _ _ G12 G37).
Qed.

(** A node of a well-formed graph has the shape its constructor
    computed. *)
Lemma op_of_shape g e op :
  graph_wf newShape g -> op_of g e = Some op ->
  newShape op = Some (expr_shape e).
Proof.
  intros WF H. unfold op_of in H.
  destruct (tape g !! expr_id e) as [n|] eqn:En; [|done].
  destruct (decide (node_expr n = e)) as [<-|]; [|done].
  injection H as <-. by destruct (WF _ _ En).
Qed.

(** A clipped operand has the shape of the operand. *)
Lemma clipped_shape a c g e :
  graph_wf newShape g -> clip_keeps_shape newShape ->
  clipped a c g e -> expr_shape e = expr_shape a.
Proof.
  intros WF K. unfold clipped.
  destruct (Float32.eqb c (Float32.of_Z 0)); [by intros ->|].
  intros O. apply (op_of_shape _ _ _ WF) in O. rewrite K in O. by injection O.
Qed.

(** The general path of [affine]: the column of ones, the clipped
    operands, and the affine node over the four inputs. *)
Lemma affine_general_Ok (a b bias : Expr) (transA transB : bool) (scale c : float)
    (tuner : AutoTuner) g res g' :
  graph_wf newShape g ->
  (let* rows := lift (shape_rows (expr_shape a)) in
   let* ones := graph_ones newShape [rows; 1] in
   let* ac := clip newShape a c in
   let* bc := clip newShape b c in
   let* r := Expression newShape
               (AffineNodeOp [ac; bc; bias; ones] transA transB scale) in
   ret (r, tuner)) g = Ok (res, g') ->
  snd res = tuner /\
  exists ac bc rows ones,
    shape_rows (expr_shape a) = Ok rows /\
    op_of g' ones = Some (ConstantNode [rows; 1] inits_ones) /\
    clipped a c g' ac /\
    clipped b c g' bc /\
    op_of g' (fst res) = Some (AffineNodeOp [ac; bc; bias; ones] transA transB scale) /\
    grown g g' [ConstantNode [rows; 1] inits_ones;
                ClipNodeOp a c; ClipNodeOp b c;
                AffineNodeOp [ac; bc; bias; ones] transA transB scale].
Proof.
  intros WF H.
  apply bind_Ok in H as (rows & g0 & Hrows & H).
  apply lift_Ok in Hrows as [Hrows ->].
  apply bind_Ok in H as (ones & g1 & Hones & H).
  apply bind_Ok in H as (ac & g2 & Hca & H).
  apply bind_Ok in H as (bc & g3 & Hcb & H).
  apply bind_Ok in H as (r & g4 & Haff & Hret).
  apply ret_Ok in Hret as [-> ->].
  unfold graph_ones in Hones.
  destruct (Expression_Ok _ _ _ _ _ WF Hones) as (WF1 & G1 & O1 & _).
  destruct (clip_Ok _ _ _ _ _ _ WF1 Hca) as (WF2 & G2 & C2).
  destruct (clip_Ok _ _ _ _ _ _ WF2 Hcb) as (WF3 & G3 & C3).
  destruct (Expression_Ok _ _ _ _ _ WF3 Haff) as (WF4 & G4 & O4 & _).
  pose proof (grown_trans _ _ _ _ _ G3 G4) as G34.
  pose proof (grown_trans _ _ _ _ _ G2 G34) as G24.
  split; [done|]. exists ac, bc, rows, ones.
  split; [done|].
  split; [eauto using op_of_grown|].
  split; [eauto using clipped_grown|].
  split; [eauto using clipped_grown|].
  split; [done|].
  apply (grown_trans _ _ _ _ _ G1 G24).
Qed.

End AffineFacts.

Section AffineDispatch.

Variable newShape : NodeOp -> option Shape.
Variable argOrder : ArgOrder.
Variable Shape_hash : Shape -> Z.
Variable hash_combine_size_t : Z -> Z -> Z.
Variable hash_combine_bool : Z -> bool -> Z.
Variable hash_combine_int : Z -> Z -> Z.
Variable elapsed : Z -> Z.

Lemma affine_tuned (a b bias : Expr) (transA transB : bool) (scale : float)
    (tuner : AutoTuner) g :
  optimized g && DeviceType_eqb (device g) cpu = true ->
  affine newShape argOrder Shape_hash hash_combine_size_t hash_combine_bool
    hash_combine_int elapsed a b bias transA transB scale tuner g
  = run elapsed
      (mkTuner (affine_candidates newShape argOrder Shape_hash
                  hash_combine_size_t hash_combine_bool hash_combine_int
                  a b bias transA transB scale (backendClip g))
               (resolved_ tuner) (measured_ tuner)) g.
Proof.
  intros H. unfold affine.
  rewrite bind_gets. cbv beta. rewrite bind_gets. cbv beta.
  rewrite bind_gets. cbv beta. rewrite H. cbv zeta.
  rewrite affine_hash_fingerprint, bind_lift_Ok. reflexivity.
Qed.

Lemma affine_untuned (a b bias : Expr) (transA transB : bool) (scale : float)
    (tuner : AutoTuner) g :
  optimized g && DeviceType_eqb (device g) cpu = false ->
  affine newShape argOrder Shape_hash hash_combine_size_t hash_combine_bool
    hash_combine_int elapsed a b bias transA transB scale tuner g
  = (let* rows := lift (shape_rows (expr_shape a)) in
     let* ones := graph_ones newShape [rows; 1] in
     let* ac := clip newShape a (backendClip g) in
     let* bc := clip newShape b (backendClip g) in
     let* r := Expression newShape
                 (AffineNodeOp [ac; bc; bias; ones] transA transB scale) in
     ret (r, tuner)) g.
Proof.
  intros H. unfold affine.
  rewrite bind_gets. cbv beta. rewrite bind_gets. cbv beta.
  rewrite bind_gets. cbv beta. by rewrite H.
Qed.

End AffineDispatch.




(** C1.  On an optimized CPU graph [affine] starts the tuner on a new
    set of candidates, registers exactly two and returns what the tuner's
    [run] returns.  The keys of the two are the fingerprint of the call
    combined with 1 and with 2; the first candidate builds the int16
    affine node over the quantized operands and the bias, the second the
    affine node over the clipped operands, the bias and a column of ones.
    In every other configuration [affine] leaves the tuner alone and
    builds that second form directly: a column of ones, the clipped
    operands, and one affine node over the four.  The column has one row
    per row of the first operand seen as a matrix: for a shape
    [init ++ [last]] within the range of [int], the product of [init]. *)
Theorem affine_dispatch (newShape : NodeOp -> option Shape) (argOrder : ArgOrder)
    (Shape_hash : Shape -> Z) (hash_combine_size_t : Z -> Z -> Z)
    (hash_combine_bool : Z -> bool -> Z) (hash_combine_int : Z -> Z -> Z)
    (elapsed : Z -> Z)
    (a b bias : Expr) (transA transB : bool) (scale : float)
    (tuner : AutoTuner) (g : ExpressionGraph) :
  graph_wf newShape g ->
  let c := backendClip g in
  let tuned := optimized g && DeviceType_eqb (device g) cpu in
  let hash := fingerprint Shape_hash hash_combine_size_t hash_combine_bool
                (expr_shape a) (expr_shape b) (expr_shape bias) transA transB in
  let hash1 := hash_combine_int hash 1 in
  let hash2 := hash_combine_int hash 2 in
  let candidate1 := alg1 newShape argOrder a b bias transA transB scale c hash1 in
  let candidate2 := alg2 newShape a b bias transA transB scale c hash2 in
  let rows_of_a (rows : Z) :=
    forall init last,
      expr_shape a = init ++ [last] -> int_shape (expr_shape a) ->
      rows = ShapeOps.elements init in
  (tuned = true ->
     affine newShape argOrder Shape_hash hash_combine_size_t hash_combine_bool
       hash_combine_int elapsed a b bias transA transB scale tuner g
     = run elapsed
         (mkTuner [(hash1, candidate1); (hash2, candidate2)]
                  (resolved_ tuner) (measured_ tuner)) g /\
     (forall g0 e g1,
        graph_wf newShape g0 -> candidate1 g0 = Ok (e, g1) ->
        exists ta tb qa qb,
          maybe_transposed transA a g1 ta /\
          maybe_transposed (negb transB) b g1 tb /\
          op_of g1 qa = Some (Int16QuantizeNodeOp ta c) /\
          op_of g1 qb = Some (Int16QuantizeNodeOp tb c) /\
          op_of g1 e = Some (Int16AffineNodeOp [qa; qb; bias] scale)) /\
     (forall g0 e g1,
        graph_wf newShape g0 -> candidate2 g0 = Ok (e, g1) ->
        exists ac bc rows ones,
          clipped a c g1 ac /\ clipped b c g1 bc /\
          shape_rows (expr_shape ac) = Ok rows /\
          (clip_keeps_shape newShape -> rows_of_a rows) /\
          op_of g1 ones = Some (ConstantNode [rows; 1] inits_ones) /\
          op_of g1 e = Some (AffineNodeOp [ac; bc; bias; ones] transA transB scale))) /\
  (tuned = false ->
     forall r t' g',
       affine newShape argOrder Shape_hash hash_combine_size_t hash_combine_bool
         hash_combine_int elapsed a b bias transA transB scale tuner g
       = Ok (r, t', g') ->
       t' = tuner /\
       exists ac bc rows ones,
         shape_rows (expr_shape a) = Ok rows /\
         rows_of_a rows /\
         op_of g' ones = Some (ConstantNode [rows; 1] inits_ones) /\
         clipped a c g' ac /\ clipped b c g' bc /\
         op_of g' r = Some (AffineNodeOp [ac; bc; bias; ones] transA transB scale) /\
         grown g g' [ConstantNode [rows; 1] inits_ones;
                     ClipNodeOp a c; ClipNodeOp b c;
                     AffineNodeOp [ac; bc; bias; ones] transA transB scale]).
Proof.
  intros WF c tuned hash hash1 hash2 candidate1 candidate2 rows_of_a. split.
  - intros Ht. split; [|split].
    + exact (affine_tuned newShape argOrder Shape_hash hash_combine_size_t
               hash_combine_bool hash_combine_int elapsed
               a b bias transA transB scale tuner g Ht).
    + intros g0 e g1 WF0 H.
      destruct (alg1_Ok _ _ _ _ _ _ _ _ _ _ _ _ _ WF0 H)
        as (_ & ta & tb & qa & qb & ? & ? & ? & ? & ? & _).
      by exists ta, tb, qa, qb.
    + intros g0 e g1 WF0 H.
      destruct (alg2_Ok _ _ _ _ _ _ _ _ _ _ _ _ WF0 H)
        as (WF1 & ac & bc & rows & ones & Ca & Cb & Hrows & Oo & Oe & _).
      exists ac, bc, rows, ones.
      split; [done|]. split; [done|]. split; [done|]. split; [|done].
      intros K init last Sa Hs.
      rewrite <- (clipped_shape newShape a c g1 ac WF1 K Ca) in Sa, Hs.
      by eapply shape_rows_snoc_inv.
  - intros Ht r t' g' H.
    rewrite affine_untuned in H by exact Ht.
    destruct (affine_general_Ok _ _ _ _ _ _ _ _ _ _ _ _ WF H)
      as (T & ac & bc & rows & ones & Hrows & R).
    split; [exact T|]. exists ac, bc, rows, ones.
    split; [done|]. split; [|exact R].
    intros init last Sa Hs. by eapply shape_rows_snoc_inv.
Qed.

Lemma affine_dispatch_witness :
  (exists res, AffineExamples.call1 = Ok res) /\
  length (algorithms_ (AffineExamples.tuner_of AffineExamples.call1)) = 2%nat /\
  exists r g',
    AffineExamples.affine_ref AffineExamples.a32 AffineExamples.b64
      AffineExamples.bias16 newTuner (AffineExamples.gAffine false gpu Examples.zero)
    = Ok (r, newTuner, g') /\
    exists ones,
      op_of g' ones = Some (ConstantNode [32; 1] inits_ones) /\
      op_of g' r = Some (AffineNodeOp [AffineExamples.a32; AffineExamples.b64;
                                       AffineExamples.bias16; ones]
                           false false Examples.one).
Proof.
  pose proof (affine_dispatch Reference.newShape LeftToRight Reference.Shape_hash
                Reference.hash_combine Reference.hash_combine_bool
                Reference.hash_combine Reference.elapsed
                AffineExamples.a32 AffineExamples.b64 AffineExamples.bias16
                false false Examples.one newTuner
                (AffineExamples.gAffine true cpu Examples.zero)
                (graph_wf_gAffine true cpu Examples.zero)) as [Htuned _].
  destruct (Htuned eq_refl) as (Eq & _).
  pose proof (affine_dispatch Reference.newShape LeftToRight Reference.Shape_hash
                Reference.hash_combine Reference.hash_combine_bool
                Reference.hash_combine Reference.elapsed
                AffineExamples.a32 AffineExamples.b64 AffineExamples.bias16
                false false Examples.one newTuner
                (AffineExamples.gAffine false gpu Examples.zero)
                (graph_wf_gAffine false gpu Examples.zero)) as [_ Hgeneral].
  split; [|split].
  - unfold AffineExamples.call1, AffineExamples.affine_ref. rewrite Eq.
    eexists. vm_compute. reflexivity.
  - vm_compute. reflexivity.
  - eexists _, _. split; [vm_compute; reflexivity|].
    destruct (Hgeneral eq_refl _ _ _ eq_refl)
      as (_ & ac & bc & rows & ones & _ & Hrows & Oo & Ca & Cb & O & _).
    exists ones. unfold clipped in Ca, Cb. simpl in Ca, Cb. subst ac bc.
    rewrite (Hrows [32] 64 eq_refl) in Oo.
    + split; [exact Oo | exact O].
    + split; [repeat constructor | reflexivity].
Defined.



(** * Further properties of the operators *)

(** ** Reshapes *)

Lemma Reference_reshape_keeps_count : reshape_keeps_count Reference.newShape.
Proof. intros a sh H. simpl. by rewrite H, Z.eqb_refl. Qed.

Lemma reshape_returns (newShape : NodeOp -> option Shape) (a : Expr) (sh : Shape) g :
  graph_wf newShape g ->
  reshape_keeps_count newShape ->
  ShapeOps.elements sh = ShapeOps.elements (expr_shape a) ->
  exists e g',
    Expression newShape (ReshapeNodeOp a sh) g = Ok (e, g') /\
    expr_shape e = sh /\
    op_of g' e = Some (ReshapeNodeOp a sh) /\
    graph_wf newShape g' /\
    grown g g' [ReshapeNodeOp a sh].
Proof.
  intros WF R El.
  destruct (Expression_returns newShape _ _ g (R _ _ El)) as (e & g' & H).
  destruct (Expression_Ok _ _ _ _ _ WF H) as (WF' & G & O & S).
  exists e, g'. rewrite (R _ _ El) in S. injection S as S. done.
Qed.

(** ** flatten and flatten_2d *)

Lemma int_shape_rows (init : Shape) (last : Z) :
  int_shape (init ++ [last]) -> int_shape ([ShapeOps.elements init] ++ [last]).
Proof.
  intros Hs. destruct (int_shape_snoc _ _ Hs) as (Hl & Hi & _ & Hb).
  split; [by repeat constructor|].
  unfold ShapeOps.elements. simpl. fold (ShapeOps.elements init). lia.
Qed.

Lemma int_shape_flat (s : Shape) :
  int_shape s -> int_shape [ShapeOps.elements s].
Proof.
  intros [Hd Hb]. pose proof (elements_pos s Hd).
  split; [by repeat constructor|].
  unfold ShapeOps.elements. simpl. fold (ShapeOps.elements s). lia.
Qed.

Lemma flatten_2d_reshape (newShape : NodeOp -> option Shape) (a : Expr)
    (init : Shape) (last : Z) :
  expr_shape a = init ++ [last] ->
  int_shape (expr_shape a) ->
  flatten_2d newShape a = reshape newShape a [ShapeOps.elements init; last].
Proof.
  intros Sa Hs. rewrite Sa in Hs.
  unfold flatten_2d. rewrite Sa, shape_rows_snoc by done.
  rewrite bind_lift_Ok. cbv beta. by rewrite at_last, bind_lift_Ok.
Qed.

Lemma flatten_2d_returns (newShape : NodeOp -> option Shape) (a : Expr)
    (init : Shape) (last : Z) g :
  expr_shape a = init ++ [last] ->
  int_shape (expr_shape a) ->
  graph_wf newShape g ->
  reshape_keeps_count newShape ->
  exists e g',
    flatten_2d newShape a g = Ok (e, g') /\
    expr_shape e = [ShapeOps.elements init; last] /\
    op_of g' e = Some (ReshapeNodeOp a [ShapeOps.elements init; last]) /\
    graph_wf newShape g' /\
    grown g g' [ReshapeNodeOp a [ShapeOps.elements init; last]].
Proof.
  intros Sa Hs WF R. rewrite (flatten_2d_reshape _ _ init last) by done.
  unfold reshape. apply reshape_returns; [done..|].
  rewrite Sa, elements_app. unfold ShapeOps.elements. simpl. lia.
Qed.

(** Past the range of [int] the element count wraps: a [65536 x 65537]
    input is flattened to [65536] elements, not to [4295032832]. *)
Lemma flatten_wraps (newShape : NodeOp -> option Shape) (a : Expr) :
  expr_shape a = [65536; 65537] ->
  flatten newShape a = Expression newShape (ReshapeNodeOp a [65536]).
Proof. intros Sa. unfold flatten. by rewrite Sa. Qed.

(** X1.  [flatten_2d a], for [a] of a shape [init ++ [last]] within the
    range of [int] (positive dimensions, fewer than [2^31] elements), is
    the reshape of [a] to [[elements init; last]]: the quotient
    [elements / last] is exact, the target has the element count of [a],
    and the call returns whenever reshape nodes accept shapes of equal
    element count.  Applied to its own result it gives that shape
    again. *)
Theorem flatten_2d_spec (newShape : NodeOp -> option Shape) (a : Expr)
    (init : Shape) (last : Z) (g : ExpressionGraph) :
  expr_shape a = init ++ [last] ->
  int_shape (expr_shape a) ->
  graph_wf newShape g ->
  reshape_keeps_count newShape ->
  flatten_2d newShape a = reshape newShape a [ShapeOps.elements init; last] /\
  ShapeOps.elements [ShapeOps.elements init; last] = ShapeOps.elements (expr_shape a) /\
  exists e g',
    flatten_2d newShape a g = Ok (e, g') /\
    expr_shape e = [ShapeOps.elements init; last] /\
    op_of g' e = Some (ReshapeNodeOp a [ShapeOps.elements init; last]) /\
    grown g g' [ReshapeNodeOp a [ShapeOps.elements init; last]] /\
    exists e2 g2,
      flatten_2d newShape e g' = Ok (e2, g2) /\
      expr_shape e2 = expr_shape e.
Proof.
  intros Sa Hs WF R.
  split; [by apply flatten_2d_reshape|]. split.
  { rewrite Sa, elements_app. unfold ShapeOps.elements. simpl. lia. }
  destruct (flatten_2d_returns newShape a init last g Sa Hs WF R)
    as (e & g' & H & S & O & WF' & G).
  exists e, g'. split; [done|]. split; [done|]. split; [done|]. split; [done|].
  assert (int_shape (expr_shape e)) as Hs'.
  { rewrite S. rewrite Sa in Hs. exact (int_shape_rows _ _ Hs). }
  destruct (flatten_2d_returns newShape e [ShapeOps.elements init] last g' S Hs' WF' R)
    as (e2 & g2 & H2 & S2 & _).
  exists e2, g2. split; [done|]. rewrite S2, S.
  unfold ShapeOps.elements. simpl. f_equal. lia.
Qed.

Lemma flatten_2d_spec_witness :
  exists e g',
    flatten_2d Reference.newShape Examples.x234 (Examples.gX false) = Ok (e, g') /\
    expr_shape e = [6; 4].
Proof.
  destruct (flatten_2d_spec Reference.newShape Examples.x234 [2; 3] 4
              (Examples.gX false) eq_refl)
    as (_ & _ & e & g' & H & S & _).
  - split; [repeat constructor | reflexivity].
  - apply graph_wf_gX.
  - apply Reference_reshape_keeps_count.
  - exists e, g'. split; [exact H | exact S].
Defined.

(** X2.  [flatten a], for [a] of a shape within the range of [int]
    (positive dimensions, fewer than [2^31] elements), returns the reshape
    of [a] to the one-dimensional shape of its element count, and
    flattening the result again gives that same shape: a second [flatten]
    changes nothing about the shape. *)
Theorem flatten_spec (newShape : NodeOp -> option Shape) (a : Expr)
    (g : ExpressionGraph) :
  int_shape (expr_shape a) ->
  graph_wf newShape g ->
  reshape_keeps_count newShape ->
  exists e g',
    flatten newShape a g = Ok (e, g') /\
    expr_shape e = [ShapeOps.elements (expr_shape a)] /\
    op_of g' e = Some (ReshapeNodeOp a [ShapeOps.elements (expr_shape a)]) /\
    exists e2 g2,
      flatten newShape e g' = Ok (e2, g2) /\
      expr_shape e2 = expr_shape e.
Proof.
  intros Hs WF R.
  assert (forall s, ShapeOps.elements [ShapeOps.elements s] = ShapeOps.elements s)
    as El by (intros s; unfold ShapeOps.elements; simpl; lia).
  unfold flatten. rewrite (int_shape_elements _ Hs).
  destruct (reshape_returns newShape a _ g WF R (El _))
    as (e & g' & H & S & O & WF' & _).
  exists e, g'. split; [done|]. split; [done|]. split; [done|].
  assert (int_shape (expr_shape e)) as Hs'.
  { rewrite S. by apply int_shape_flat. }
  rewrite (int_shape_elements _ Hs').
  destruct (reshape_returns newShape e _ g' WF' R (El _))
    as (e2 & g2 & H2 & S2 & _).
  exists e2, g2. split; [done|].
  rewrite S2, S. by rewrite El.
Qed.

Lemma flatten_spec_witness :
  exists e g',
    flatten Reference.newShape Examples.x234 (Examples.gX false) = Ok (e, g') /\
    expr_shape e = [24].
Proof.
  destruct (flatten_spec Reference.newShape Examples.x234 (Examples.gX false))
    as (e & g' & H & S & _).
  - split; [repeat constructor | reflexivity].
  - apply graph_wf_gX.
  - apply Reference_reshape_keeps_count.
  - exists e, g'. split; [exact H | exact S].
Defined.

(** ** atleast_nd, again *)

(** X3.  [atleast_nd a n] returns an expression of rank
    [max (rank a) n] with the element count of [a]; asking again for any
    rank [m <= n] returns that expression itself and leaves the graph as
    it is.  So [atleast_2d] after [atleast_4d] adds nothing. *)
Theorem atleast_nd_idempotent (newShape : NodeOp -> option Shape) (a : Expr)
    (n : nat) (g : ExpressionGraph) :
  graph_wf newShape g ->
  reshape_keeps_count newShape ->
  exists e g',
    atleast_nd newShape a n g = Ok (e, g') /\
    length (expr_shape e) = Nat.max (length (expr_shape a)) n /\
    ShapeOps.elements (expr_shape e) = ShapeOps.elements (expr_shape a) /\
    (forall m, (m <= n)%nat -> atleast_nd newShape e m g' = Ok (e, g')) /\
    (n = 4%nat -> atleast_4d newShape a g = Ok (e, g') /\
                  atleast_2d newShape e g' = Ok (e, g')).
Proof.
  intros WF R.
  assert (forall (e : Expr) m g0, (m <= length (expr_shape e))%nat ->
            atleast_nd newShape e m g0 = Ok (e, g0)) as Id.
  { intros e m g0 Hm. unfold atleast_nd. apply Nat.leb_le in Hm. by rewrite Hm. }
  destruct (Nat.le_gt_cases n (length (expr_shape a))) as [Hle|Hlt].
  - exists a, g. split; [by apply Id|]. split; [lia|]. split; [done|].
    split; [intros m Hm; apply Id; lia|].
    intros ->. split; apply Id; lia.
  - assert (ShapeOps.elements (replicate (n - length (expr_shape a)) 1 ++ expr_shape a)
            = ShapeOps.elements (expr_shape a)) as El.
    { rewrite elements_app, elements_ones. lia. }
    destruct (reshape_returns newShape a _ g WF R El) as (e & g' & H & S & _).
    assert (atleast_nd newShape a n g = Ok (e, g')) as Res.
    { unfold atleast_nd. destruct (Nat.leb_spec n (length (expr_shape a))); [lia|].
      rewrite atleast_nd_loop_pad by done. rewrite bind_lift_Ok. exact H. }
    assert (length (expr_shape e) = n) as Len.
    { rewrite S, length_app, length_replicate. lia. }
    exists e, g'. split; [done|]. split; [lia|]. split; [by rewrite S|].
    split; [intros m Hm; apply Id; lia|].
    intros ->. split; [exact Res | apply Id; lia].
Qed.

Lemma atleast_nd_idempotent_witness :
  exists e g',
    atleast_nd Reference.newShape Examples.x234 4 (Examples.gX false) = Ok (e, g') /\
    length (expr_shape e) = 4%nat.
Proof.
  destruct (atleast_nd_idempotent Reference.newShape Examples.x234 4
              (Examples.gX false) (graph_wf_gX false)
              Reference_reshape_keeps_count)
    as (e & g' & H & L & _).
  exists e, g'. split; [exact H | exact L].
Defined.

(** ** clip and zero *)

(** X4.  The comparison [c == 0] that switches clipping off holds for
    the two zeros of the float format and for no other value: [clip a c]
    returns [a] and leaves the graph alone for [+0] and [-0], and builds a
    clip node for everything else, NaN included. *)
Theorem clip_disabled_by_zero (newShape : NodeOp -> option Shape) (a : Expr)
    (c : float) (g : ExpressionGraph) :
  (Float32.eqb c (Float32.of_Z 0) = true <-> exists s, c = S754_zero s) /\
  ((exists s, c = S754_zero s) -> clip newShape a c g = Ok (a, g)) /\
  ((forall s, c <> S754_zero s) ->
     clip newShape a c = Expression newShape (ClipNodeOp a c)) /\
  clip newShape a S754_nan = Expression newShape (ClipNodeOp a S754_nan).
Proof.
  assert (Float32.eqb c (Float32.of_Z 0) = true <-> exists s, c = S754_zero s) as Z0.
  { destruct c as [s|s| |s m e].
    - split; [by exists s | reflexivity].
    - split; [by destruct s | by intros [s' [=]]].
    - split; [discriminate | by intros [s' [=]]].
    - split; [by destruct s | by intros [s' [=]]]. }
  split; [exact Z0|]. split; [|split].
  - intros Hz. apply Z0 in Hz. unfold clip. by rewrite Hz.
  - intros Hnz. unfold clip.
    destruct (Float32.eqb c (Float32.of_Z 0)); [|done].
    destruct (proj1 Z0 eq_refl) as [s ->]. by destruct (Hnz s).
  - reflexivity.
Qed.

Lemma clip_disabled_by_zero_witness :
  clip Reference.newShape Examples.x234 (S754_zero true) (Examples.gX false)
  = Ok (Examples.x234, Examples.gX false).
Proof.
  destruct (clip_disabled_by_zero Reference.newShape Examples.x234
              (S754_zero true) (Examples.gX false)) as (_ & H & _).
  apply H. by exists true.
Defined.

(** ** transpose and swapAxes *)

Lemma axis_Failed s ax f : ShapeOps.axis s ax = Failed f -> f = OutOfRange.
Proof.
  unfold ShapeOps.axis. destruct (_ && _); [done|]. by intros [= <-].
Qed.

Lemma swapped_sym (n : nat) (r1 r2 : Z) : swapped n r1 r2 = swapped n r2 r1.
Proof.
  unfold swapped. apply list_fmap_ext. intros _ i _.
  destruct (Z.eqb_spec i r1), (Z.eqb_spec i r2); congruence.
Qed.

Lemma swapAxes_resolved (newShape : NodeOp -> option Shape) (x : Expr)
    (axis1 axis2 r1 r2 : Z) :
  ShapeOps.axis (expr_shape x) axis1 = Ok r1 ->
  ShapeOps.axis (expr_shape x) axis2 = Ok r2 ->
  swapAxes newShape x axis1 axis2
  = (if r1 =? r2 then ret x
     else transpose_axes newShape x (swapped (length (expr_shape x)) r1 r2)).
Proof.
  intros A1 A2.
  pose proof A1 as [B1 _]%axis_Ok. pose proof A2 as [B2 _]%axis_Ok.
  unfold ShapeOps.size in *.
  unfold swapAxes. rewrite A1, A2.
  rewrite bind_lift_Ok. cbv beta. rewrite bind_lift_Ok. cbv beta.
  destruct (r1 =? r2); [done|].
  rewrite swap_iota by done. by rewrite bind_lift_Ok.
Qed.

Lemma transpose_swapAxes (newShape : NodeOp -> option Shape) (a : Expr) :
  (2 <= length (expr_shape a))%nat ->
  transpose newShape a = swapAxes newShape a (-1) (-2).
Proof.
  intros Hr. set (n := length (expr_shape a)) in *.
  rewrite (swapAxes_resolved newShape a (-1) (-2) (Z.of_nat n - 1) (Z.of_nat n - 2)).
  - destruct (Z.eqb_spec (Z.of_nat n - 1) (Z.of_nat n - 2)); [lia|].
    unfold transpose, transpose_axes. fold n.
    destruct (Nat.ltb_spec 1 n); [|lia].
    do 2 f_equal. fold n.
    pose proof (swap_iota n (Z.of_nat n - 1) (Z.of_nat n - 2)) as Hs.
    unfold swap in Hs.
    rewrite (iota_axes_lookup n (Z.to_nat (Z.of_nat n - 1))) in Hs by lia.
    rewrite (iota_axes_lookup n (Z.to_nat (Z.of_nat n - 2))) in Hs by lia.
    destruct (Z.leb_spec 0 (Z.of_nat n - 1)); [|lia].
    destruct (Z.leb_spec 0 (Z.of_nat n - 2)); [|lia]. simpl in Hs.
    rewrite !Z2Nat.id in Hs by lia.
    replace (Z.to_nat (Z.of_nat n - 1)) with (n - 1)%nat in Hs by lia.
    replace (Z.to_nat (Z.of_nat n - 2)) with (n - 2)%nat in Hs by lia.
    assert (Ok (<[(n - 2)%nat:=Z.of_nat n - 1]>
                  (<[(n - 1)%nat:=Z.of_nat n - 2]> (iota_axes n)))
            = Ok (swapped n (Z.of_nat n - 1) (Z.of_nat n - 2))) as Hs'
      by (apply Hs; lia).
    by injection Hs'.
  - apply axis_Ok. unfold ShapeOps.size. fold n. simpl. lia.
  - apply axis_Ok. unfold ShapeOps.size. fold n. simpl. lia.
Qed.

(** X5.  On an expression of rank at least 2, [transpose a] is
    [swapAxes a (-1) (-2)]: the two build the same node with the same axes.
    On rank 0 and rank 1 they part: [transpose] still builds a transpose
    node, over the identity permutation, while [swapAxes] cannot resolve
    axis [-2]. *)
Theorem transpose_is_swapAxes (newShape : NodeOp -> option Shape) (a : Expr)
    (g : ExpressionGraph) :
  ((2 <= length (expr_shape a))%nat ->
     transpose newShape a = swapAxes newShape a (-1) (-2)) /\
  ((length (expr_shape a) < 2)%nat ->
     transpose newShape a
     = Expression newShape (TransposeNodeOp a (iota_axes (length (expr_shape a)))) /\
     iota_axes (length (expr_shape a)) = Z.of_nat <$> seq 0 (length (expr_shape a)) /\
     swapAxes newShape a (-1) (-2) g = Failed OutOfRange).
Proof.
  split; [apply transpose_swapAxes|].
  intros Hr. split; [|split].
  - unfold transpose. destruct (Nat.ltb_spec 1 (length (expr_shape a))); [lia|done].
  - apply iota_axes_seq.
  - unfold swapAxes, bind, lift.
    destruct (ShapeOps.axis (expr_shape a) (-1)) as [r1|f] eqn:A1.
    + destruct (ShapeOps.axis (expr_shape a) (-2)) as [r2|f] eqn:A2.
      * apply axis_Ok in A2 as [B E]. unfold ShapeOps.size in B, E.
        simpl in E. lia.
      * by rewrite (axis_Failed _ _ _ A2).
    + by rewrite (axis_Failed _ _ _ A1).
Qed.

Lemma transpose_is_swapAxes_witness :
  transpose Reference.newShape Examples.x234
  = swapAxes Reference.newShape Examples.x234 (-1) (-2).
Proof.
  apply (transpose_is_swapAxes Reference.newShape Examples.x234 (Examples.gX false)).
  simpl. lia.
Defined.

(** X6.  [swapAxes] does not care for the order of its two axes:
    [swapAxes x axis1 axis2] and [swapAxes x axis2 axis1] return the same
    expression, build the same transpose node, or fail alike. *)
Theorem swapAxes_symmetric (newShape : NodeOp -> option Shape) (x : Expr)
    (axis1 axis2 : Z) :
  swapAxes newShape x axis1 axis2 = swapAxes newShape x axis2 axis1.
Proof.
  destruct (ShapeOps.axis (expr_shape x) axis1) as [r1|f1] eqn:A1;
    destruct (ShapeOps.axis (expr_shape x) axis2) as [r2|f2] eqn:A2.
  - rewrite (swapAxes_resolved _ _ _ _ _ _ A1 A2).
    rewrite (swapAxes_resolved _ _ _ _ _ _ A2 A1).
    rewrite (Z.eqb_sym r2 r1). by rewrite swapped_sym.
  - unfold swapAxes. rewrite A1, A2. by rewrite (axis_Failed _ _ _ A2).
  - unfold swapAxes. rewrite A1, A2. by rewrite (axis_Failed _ _ _ A1).
  - unfold swapAxes. rewrite A1, A2.
    by rewrite (axis_Failed _ _ _ A1), (axis_Failed _ _ _ A2).
Qed.

(** ** Shapes under transposition *)

Lemma iota_axes_seqZ (n : nat) : iota_axes n = seqZ 0 (Z.of_nat n).
Proof.
  rewrite iota_axes_seq. unfold seqZ. rewrite Nat2Z.id.
  apply list_fmap_ext. intros _ i _. lia.
Qed.

Lemma permuted_fmap (s : Shape) (axes : list Z) :
  Forall (fun i => 0 <= i < Z.of_nat (length s)) axes ->
  permuted s axes = (fun i => default 0 (s !! Z.to_nat i)) <$> axes.
Proof.
  unfold permuted. induction 1 as [|i axes Hi _ IH]; [done|].
  destruct (lookup_lt_is_Some_2 s (Z.to_nat i)) as [d Hd]; [lia|].
  rewrite fmap_cons, <- IH. cbn. by rewrite Hd.
Qed.

Lemma swapped_in_range (n : nat) (r1 r2 : Z) :
  0 <= r1 < Z.of_nat n -> 0 <= r2 < Z.of_nat n ->
  Forall (fun i => 0 <= i < Z.of_nat n) (swapped n r1 r2).
Proof.
  intros H1 H2. unfold swapped. rewrite iota_axes_seq.
  apply Forall_fmap, Forall_fmap, Forall_forall.
  intros k Hk%elem_of_seq. simpl.
  destruct (Z.eqb_spec (Z.of_nat k) r1); [lia|].
  destruct (Z.eqb_spec (Z.of_nat k) r2); lia.
Qed.

Lemma permuted_swapped_lookup (s : Shape) (n : nat) (r1 r2 : Z) (k : nat) :
  length s = n ->
  0 <= r1 < Z.of_nat n -> 0 <= r2 < Z.of_nat n ->
  (k < n)%nat ->
  permuted s (swapped n r1 r2) !! k
  = s !! Z.to_nat (if Z.of_nat k =? r1 then r2
                   else if Z.of_nat k =? r2 then r1 else Z.of_nat k).
Proof.
  intros <- H1 H2 Hk.
  rewrite permuted_fmap by (by apply swapped_in_range).
  rewrite list_lookup_fmap, swapped_lookup by done. simpl.
  set (j := if Z.of_nat k =? r1 then r2 else if Z.of_nat k =? r2 then r1 else Z.of_nat k).
  assert (0 <= j < Z.of_nat (length s)) as Hj.
  { unfold j. destruct (Z.eqb_spec (Z.of_nat k) r1); [lia|].
    destruct (Z.eqb_spec (Z.of_nat k) r2); lia. }
  destruct (lookup_lt_is_Some_2 s (Z.to_nat j)) as [d Hd]; [lia|].
  by rewrite Hd.
Qed.

Lemma permuted_swapped_length (s : Shape) (n : nat) (r1 r2 : Z) :
  length s = n ->
  0 <= r1 < Z.of_nat n -> 0 <= r2 < Z.of_nat n ->
  length (permuted s (swapped n r1 r2)) = n.
Proof.
  intros <- H1 H2. rewrite permuted_fmap by (by apply swapped_in_range).
  unfold swapped. by rewrite !length_fmap, iota_axes_length.
Qed.

(** Exchanging two dimensions twice gives the shape back. *)
Lemma permuted_swapped_twice (s : Shape) (n : nat) (r1 r2 : Z) :
  length s = n ->
  0 <= r1 < Z.of_nat n -> 0 <= r2 < Z.of_nat n ->
  permuted (permuted s (swapped n r1 r2)) (swapped n r1 r2) = s.
Proof.
  intros Hn H1 H2.
  pose proof (permuted_swapped_length s n r1 r2 Hn H1 H2) as L.
  apply list_eq. intros k.
  destruct (decide (k < n)%nat) as [Hk|Hk].
  - rewrite (permuted_swapped_lookup _ n) by done.
    set (j := if Z.of_nat k =? r1 then r2 else if Z.of_nat k =? r2 then r1 else Z.of_nat k).
    assert (0 <= j < Z.of_nat n) as Hj.
    { unfold j. destruct (Z.eqb_spec (Z.of_nat k) r1); [lia|].
      destruct (Z.eqb_spec (Z.of_nat k) r2); lia. }
    rewrite (permuted_swapped_lookup _ n) by (done || lia).
    rewrite Z2Nat.id by lia.
    assert ((if j =? r1 then r2 else if j =? r2 then r1 else j) = Z.of_nat k) as ->.
    { unfold j. destruct (Z.eqb_spec (Z.of_nat k) r1), (Z.eqb_spec (Z.of_nat k) r2);
        subst;
        repeat (match goal with
                | |- context [?a =? ?b] => destruct (Z.eqb_spec a b)
                end; try lia); lia. }
    by rewrite Nat2Z.id.
  - rewrite (lookup_ge_None_2 s) by lia.
    apply lookup_ge_None_2.
    rewrite (permuted_swapped_length _ n) by done. lia.
Qed.

Lemma transposeShape_swapped (s : Shape) (r1 r2 : Z) :
  0 <= r1 < Z.of_nat (length s) -> 0 <= r2 < Z.of_nat (length s) ->
  Reference.transposeShape s (swapped (length s) r1 r2)
  = Some (permuted s (swapped (length s) r1 r2)).
Proof.
  intros H1 H2. unfold Reference.transposeShape, ShapeOps.size.
  rewrite bool_decide_eq_true_2; [done|].
  rewrite <- iota_axes_seqZ. by apply swapped_Permutation.
Qed.

Lemma permuted_iota (s : Shape) : permuted s (iota_axes (length s)) = s.
Proof.
  rewrite permuted_fmap.
  - apply list_eq. intros k. rewrite list_lookup_fmap.
    destruct (decide (k < length s)%nat) as [Hk|Hk].
    + rewrite iota_axes_lookup by done. simpl. rewrite Nat2Z.id.
      destruct (lookup_lt_is_Some_2 s k Hk) as [d Hd]. by rewrite Hd.
    + rewrite (lookup_ge_None_2 (iota_axes _)) by (rewrite iota_axes_length; lia).
      simpl. symmetry. apply lookup_ge_None_2. lia.
  - rewrite iota_axes_seq. apply Forall_fmap, Forall_forall.
    intros k Hk%elem_of_seq. simpl. lia.
Qed.

Lemma transposeShape_iota (s : Shape) :
  Reference.transposeShape s (iota_axes (length s)) = Some s.
Proof.
  unfold Reference.transposeShape, ShapeOps.size.
  rewrite bool_decide_eq_true_2 by (by rewrite iota_axes_seqZ).
  f_equal. apply permuted_iota.
Qed.

Lemma axis_same_rank (s s' : Shape) (ax : Z) :
  length s' = length s -> ShapeOps.axis s' ax = ShapeOps.axis s ax.
Proof. intros H. unfold ShapeOps.axis, ShapeOps.size. by rewrite H. Qed.

Lemma lookup_app_plus {A} (l1 l2 : list A) (i : nat) :
  (l1 ++ l2) !! (length l1 + i)%nat = l2 !! i.
Proof.
  rewrite lookup_app_r by lia. f_equal. lia.
Qed.

(** The last two dimensions exchanged. *)
Lemma permuted_last_two (init : Shape) (d1 d2 : Z) :
  let n := length (init ++ [d1; d2]) in
  permuted (init ++ [d1; d2]) (swapped n (Z.of_nat n - 1) (Z.of_nat n - 2))
  = init ++ [d2; d1].
Proof.
  intros n.
  assert (n = (length init + 2)%nat) as Hn by (unfold n; rewrite length_app; done).
  apply list_eq. intros k.
  destruct (decide (k < n)%nat) as [Hk|Hk].
  - rewrite (permuted_swapped_lookup _ n) by (done || lia).
    destruct (Z.eqb_spec (Z.of_nat k) (Z.of_nat n - 1)) as [E1|E1].
    + replace (Z.to_nat (Z.of_nat n - 2)) with (length init + 0)%nat by lia.
      replace k with (length init + 1)%nat by lia.
      by rewrite !lookup_app_plus.
    + destruct (Z.eqb_spec (Z.of_nat k) (Z.of_nat n - 2)) as [E2|E2].
      * replace (Z.to_nat (Z.of_nat n - 1)) with (length init + 1)%nat by lia.
        replace k with (length init + 0)%nat by lia.
        by rewrite !lookup_app_plus.
      * rewrite Nat2Z.id. by rewrite !lookup_app_l by lia.
  - rewrite lookup_ge_None_2.
    + symmetry. apply lookup_ge_None_2. rewrite length_app. simpl. lia.
    + rewrite (permuted_swapped_length _ n) by (done || lia). lia.
Qed.

Section TransposeShapes.

Variable newShape : NodeOp -> option Shape.
Hypothesis Htranspose : transposes_permute newShape.

(** Under the shape rule of transpose nodes, [swapAxes] with axes that
    resolve returns, and the shape of the result is the shape of [x] with
    the two dimensions exchanged. *)
Lemma swapAxes_returns (x : Expr) (axis1 axis2 r1 r2 : Z) g :
  graph_wf newShape g ->
  ShapeOps.axis (expr_shape x) axis1 = Ok r1 ->
  ShapeOps.axis (expr_shape x) axis2 = Ok r2 ->
  exists e g',
    swapAxes newShape x axis1 axis2 g = Ok (e, g') /\
    graph_wf newShape g' /\
    expr_shape e = (if r1 =? r2 then expr_shape x
                    else permuted (expr_shape x)
                           (swapped (length (expr_shape x)) r1 r2)) /\
    length (expr_shape e) = length (expr_shape x).
Proof.
  intros WF A1 A2.
  pose proof A1 as [B1 _]%axis_Ok. pose proof A2 as [B2 _]%axis_Ok.
  unfold ShapeOps.size in *.
  rewrite (swapAxes_resolved _ _ _ _ _ _ A1 A2).
  destruct (r1 =? r2).
  - by exists x, g.
  - unfold transpose_axes.
    assert (newShape (TransposeNodeOp x (swapped (length (expr_shape x)) r1 r2))
            = Some (permuted (expr_shape x) (swapped (length (expr_shape x)) r1 r2)))
      as NS by (rewrite Htranspose; by apply transposeShape_swapped).
    destruct (Expression_returns newShape _ _ g NS) as (e & g' & H).
    destruct (Expression_Ok _ _ _ _ _ WF H) as (WF' & _ & _ & S).
    rewrite NS in S. injection S as S.
    exists e, g'. split; [done|]. split; [done|]. split; [done|].
    rewrite <- S. by apply permuted_swapped_length.
Qed.

Lemma transpose_returns (a : Expr) g :
  graph_wf newShape g ->
  exists e g',
    transpose newShape a g = Ok (e, g') /\
    graph_wf newShape g' /\
    length (expr_shape e) = length (expr_shape a) /\
    expr_shape e
    = (if (2 <=? length (expr_shape a))%nat
       then permuted (expr_shape a)
              (swapped (length (expr_shape a))
                 (Z.of_nat (length (expr_shape a)) - 1)
                 (Z.of_nat (length (expr_shape a)) - 2))
       else expr_shape a).
Proof.
  intros WF. set (n := length (expr_shape a)).
  destruct (Nat.leb_spec 2 n) as [Hr|Hr].
  - rewrite transpose_swapAxes by done.
    destruct (swapAxes_returns a (-1) (-2) (Z.of_nat n - 1) (Z.of_nat n - 2) g WF)
      as (e & g' & H & WF' & S & L).
    + apply axis_Ok. unfold ShapeOps.size. fold n. simpl. lia.
    + apply axis_Ok. unfold ShapeOps.size. fold n. simpl. lia.
    + exists e, g'. split; [done|]. split; [done|]. split; [done|].
      fold n in S. destruct (Z.eqb_spec (Z.of_nat n - 1) (Z.of_nat n - 2)); [lia|done].
  - assert (transpose newShape a
            = Expression newShape (TransposeNodeOp a (iota_axes n))) as ->.
    { unfold transpose. fold n. destruct (Nat.ltb_spec 1 n); [lia|done]. }
    assert (newShape (TransposeNodeOp a (iota_axes n)) = Some (expr_shape a)) as NS
      by (rewrite Htranspose; apply transposeShape_iota).
    destruct (Expression_returns newShape _ _ g NS) as (e & g' & H).
    destruct (Expression_Ok _ _ _ _ _ WF H) as (WF' & _ & _ & S).
    rewrite NS in S. injection S as S.
    exists e, g'. by rewrite <- S.
Qed.

End TransposeShapes.

Lemma Reference_transposes_permute : transposes_permute Reference.newShape.
Proof. intros a axes. reflexivity. Qed.

Lemma Reference_softmax_keeps_shape : softmax_keeps_shape Reference.newShape.
Proof. intros a. reflexivity. Qed.

(** X7.  [swapAxes] is its own inverse on shapes: when both axes resolve
    and transpose nodes permute the dimensions of their input,
    [swapAxes x axis1 axis2] returns, [swapAxes] of the result with the
    same two axes returns as well, and that second result has the shape of
    [x]. *)
Theorem swapAxes_twice_restores_shape (newShape : NodeOp -> option Shape)
    (x : Expr) (axis1 axis2 r1 r2 : Z) (g : ExpressionGraph) :
  transposes_permute newShape ->
  graph_wf newShape g ->
  ShapeOps.axis (expr_shape x) axis1 = Ok r1 ->
  ShapeOps.axis (expr_shape x) axis2 = Ok r2 ->
  exists e1 g1 e2 g2,
    swapAxes newShape x axis1 axis2 g = Ok (e1, g1) /\
    swapAxes newShape e1 axis1 axis2 g1 = Ok (e2, g2) /\
    length (expr_shape e1) = length (expr_shape x) /\
    expr_shape e2 = expr_shape x.
Proof.
  intros T WF A1 A2.
  pose proof A1 as [B1 _]%axis_Ok. pose proof A2 as [B2 _]%axis_Ok.
  unfold ShapeOps.size in *.
  destruct (swapAxes_returns newShape T x _ _ _ _ g WF A1 A2)
    as (e1 & g1 & H1 & WF1 & S1 & L1).
  destruct (swapAxes_returns newShape T e1 axis1 axis2 r1 r2 g1 WF1)
    as (e2 & g2 & H2 & _ & S2 & _).
  { by rewrite (axis_same_rank (expr_shape x)). }
  { by rewrite (axis_same_rank (expr_shape x)). }
  exists e1, g1, e2, g2. split; [done|]. split; [done|]. split; [done|].
  rewrite S2, L1, S1. destruct (r1 =? r2); [done|].
  by apply permuted_swapped_twice.
Qed.

Lemma swapAxes_twice_restores_shape_witness :
  exists e1 g1 e2 g2,
    swapAxes Reference.newShape Examples.x234 0 (-1) (Examples.gX false)
      = Ok (e1, g1) /\
    swapAxes Reference.newShape e1 0 (-1) g1 = Ok (e2, g2) /\
    expr_shape e1 = [4; 3; 2] /\
    expr_shape e2 = [2; 3; 4].
Proof.
  destruct (swapAxes_twice_restores_shape Reference.newShape Examples.x234
              0 (-1) 0 2 (Examples.gX false) Reference_transposes_permute
              (graph_wf_gX false) eq_refl eq_refl)
    as (e1 & g1 & e2 & g2 & H1 & H2 & _ & S2).
  exists e1, g1, e2, g2. split; [exact H1|]. split; [exact H2|].
  split; [|exact S2].
  vm_compute in H1. by injection H1 as <- _.
Defined.

(** X8.  [transpose] exchanges the last two dimensions and leaves the
    others where they are, and [transpose] of the result has the shape of
    the original again; on rank 0 and rank 1 the shape is unchanged by
    either call.  Both calls return whenever transpose nodes permute the
    dimensions of their input. *)
Theorem transpose_twice_restores_shape (newShape : NodeOp -> option Shape)
    (x : Expr) (g : ExpressionGraph) :
  transposes_permute newShape ->
  graph_wf newShape g ->
  exists e1 g1 e2 g2,
    transpose newShape x g = Ok (e1, g1) /\
    transpose newShape e1 g1 = Ok (e2, g2) /\
    expr_shape e2 = expr_shape x /\
    (forall init d1 d2, expr_shape x = init ++ [d1; d2] ->
                        expr_shape e1 = init ++ [d2; d1]) /\
    ((length (expr_shape x) < 2)%nat -> expr_shape e1 = expr_shape x).
Proof.
  intros T WF.
  destruct (transpose_returns newShape T x g WF) as (e1 & g1 & H1 & WF1 & L1 & S1).
  destruct (transpose_returns newShape T e1 g1 WF1) as (e2 & g2 & H2 & _ & _ & S2).
  exists e1, g1, e2, g2. split; [done|]. split; [done|].
  rewrite L1 in S2. set (n := length (expr_shape x)) in *.
  split; [|split].
  - rewrite S2, S1. destruct (Nat.leb_spec 2 n); [|done].
    apply permuted_swapped_twice; [done | lia | lia].
  - intros init d1 d2 Sx. rewrite S1.
    assert (n = (length init + 2)%nat) as Hn
      by (unfold n; rewrite Sx, length_app; done).
    destruct (Nat.leb_spec 2 n); [|lia].
    unfold n. rewrite Sx. apply permuted_last_two.
  - intros Hr. rewrite S1. by destruct (Nat.leb_spec 2 n); [lia|].
Qed.

Lemma transpose_twice_restores_shape_witness :
  exists e1 g1 e2 g2,
    transpose Reference.newShape Examples.x234 (Examples.gX false) = Ok (e1, g1) /\
    transpose Reference.newShape e1 g1 = Ok (e2, g2) /\
    expr_shape e1 = [2; 4; 3] /\
    expr_shape e2 = [2; 3; 4].
Proof.
  destruct (transpose_twice_restores_shape Reference.newShape Examples.x234
              (Examples.gX false) Reference_transposes_permute (graph_wf_gX false))
    as (e1 & g1 & e2 & g2 & H1 & H2 & S2 & S1 & _).
  exists e1, g1, e2, g2. split; [exact H1|]. split; [exact H2|].
  split; [|exact S2].
  apply (S1 [2] 3 4). reflexivity.
Defined.

(** X9.  [softmax a axis] keeps the shape of [a] for every axis that
    resolves, the last or not: the two [swapAxes] around the softmax node
    undo each other.  The call returns whenever transpose nodes permute
    the dimensions of their input and softmax nodes keep the shape of
    theirs. *)
Theorem softmax_keeps_shape_any_axis (newShape : NodeOp -> option Shape)
    (a : Expr) (axis r : Z) (g : ExpressionGraph) :
  transposes_permute newShape ->
  softmax_keeps_shape newShape ->
  graph_wf newShape g ->
  ShapeOps.axis (expr_shape a) axis = Ok r ->
  exists e g',
    softmax newShape a axis g = Ok (e, g') /\
    expr_shape e = expr_shape a.
Proof.
  intros T K WF A.
  assert (forall (x : Expr) g0, graph_wf newShape g0 ->
            exists y g1, Expression newShape (SoftmaxNodeOp x) g0 = Ok (y, g1) /\
                         graph_wf newShape g1 /\ expr_shape y = expr_shape x) as Soft.
  { intros x g0 WF0.
    destruct (Expression_returns newShape _ _ g0 (K x)) as (y & g1 & H).
    destruct (Expression_Ok _ _ _ _ _ WF0 H) as (WF1 & _ & _ & S).
    rewrite K in S. injection S as S. by exists y, g1. }
  unfold softmax. simpl. destruct (Z.eqb_spec axis (-1)) as [->|Hax]; simpl.
  - destruct (Soft a g WF) as (y & g1 & H & _ & S). by exists y, g1.
  - pose proof A as [B _]%axis_Ok. unfold ShapeOps.size in B.
    set (n := length (expr_shape a)) in *.
    assert (ShapeOps.axis (expr_shape a) (-1) = Ok (Z.of_nat n - 1)) as AL
      by (rewrite axis_last by (fold n; lia); done).
    destruct (swapAxes_returns newShape T a _ _ _ _ g WF A AL)
      as (x & g1 & H1 & WF1 & S1 & L1).
    destruct (Soft x g1 WF1) as (y & g2 & H2 & WF2 & S2).
    destruct (swapAxes_returns newShape T y axis (-1) r (Z.of_nat n - 1) g2 WF2)
      as (e & g3 & H3 & _ & S3 & _).
    { rewrite (axis_same_rank (expr_shape a)); [done | by rewrite S2]. }
    { rewrite (axis_same_rank (expr_shape a)); [done | by rewrite S2]. }
    exists e, g3. unfold bind. rewrite H1, H2, H3. split; [done|].
    rewrite S3, S2, L1, S1. fold n.
    destruct (r =? Z.of_nat n - 1); [done|].
    apply permuted_swapped_twice; [done | lia | lia].
Qed.

Lemma softmax_keeps_shape_any_axis_witness :
  exists e g',
    softmax Reference.newShape Examples.x234 0 (Examples.gX false) = Ok (e, g') /\
    expr_shape e = [2; 3; 4].
Proof.
  apply (softmax_keeps_shape_any_axis Reference.newShape Examples.x234 0 0
           (Examples.gX false) Reference_transposes_permute
           Reference_softmax_keeps_shape (graph_wf_gX false) eq_refl).
Defined.

(** ** affine, again *)

(** X10.  The fingerprint of an [affine] call sees the operand shapes
    only through their dimensions divided by 4: two calls whose operands
    agree dimension by dimension after that division, with the same flags,
    have the same fingerprint, whatever the hash functions are. *)
Theorem affine_hash_coarse (Shape_hash : Shape -> Z)
    (hash_combine_size_t : Z -> Z -> Z) (hash_combine_bool : Z -> bool -> Z)
    (a b bias a' b' bias' : Expr) (transA transB : bool) :
  Forall2 (fun d d' => Z.quot d 4 = Z.quot d' 4) (expr_shape a) (expr_shape a') ->
  Forall2 (fun d d' => Z.quot d 4 = Z.quot d' 4) (expr_shape b) (expr_shape b') ->
  Forall2 (fun d d' => Z.quot d 4 = Z.quot d' 4) (expr_shape bias) (expr_shape bias') ->
  affine_hash Shape_hash hash_combine_size_t hash_combine_bool a b bias transA transB
  = affine_hash Shape_hash hash_combine_size_t hash_combine_bool a' b' bias' transA transB.
Proof.
  assert (forall s s', Forall2 (fun d d' => Z.quot d 4 = Z.quot d' 4) s s' ->
                       coarsen s = coarsen s') as Co.
  { intros s s' H. unfold coarsen. induction H as [|d d' s s' Hd _ IH]; [done|].
    rewrite !fmap_cons. by rewrite Hd, IH. }
  intros Ha Hb Hc. rewrite !affine_hash_fingerprint. unfold fingerprint.
  by rewrite (Co _ _ Ha), (Co _ _ Hb), (Co _ _ Hc).
Qed.

Lemma affine_hash_coarse_witness :
  affine_hash Reference.Shape_hash Reference.hash_combine Reference.hash_combine_bool
    (mkExpr 0 [1; 2]) (mkExpr 1 [2; 5]) (mkExpr 2 [1; 5]) true false
  = affine_hash Reference.Shape_hash Reference.hash_combine Reference.hash_combine_bool
      (mkExpr 0 [3; 3]) (mkExpr 1 [3; 7]) (mkExpr 2 [1; 4]) true false.
Proof.
  apply affine_hash_coarse; simpl; repeat constructor.
Defined.

Lemma Expression_unoptimized (newShape : NodeOp -> option Shape) (op : NodeOp) g :
  Expression newShape op (unoptimized g)
  = match Expression newShape op g with
    | Ok (e, g') => Ok (e, unoptimized g')
    | Failed f => Failed f
    end.
Proof.
  unfold Expression. destruct (newShape op); [|done].
  unfold add. simpl.
  by destruct (if hashcons g then list_find _ (tape g) else None) as [[? ?]|].
Qed.

Lemma Expression_same_config (newShape : NodeOp -> option Shape) (op : NodeOp)
    g e g' :
  Expression newShape op g = Ok (e, g') -> same_config g g'.
Proof.
  unfold Expression. destruct (newShape op); [|done]. unfold add.
  destruct (if hashcons g then list_find _ (tape g) else None) as [[? ?]|];
    intros [= <- <-]; by repeat split.
Qed.

(** X11.  With clipping switched off, the second candidate of the tuner
    is the general path of [affine]: run on a graph it builds the nodes,
    in the same order and with the same result, that [affine] builds on
    that graph with the optimize flag off, and then tags the result; it
    fails where [affine] does. *)
Theorem alg2_is_general_affine (newShape : NodeOp -> option Shape)
    (argOrder : ArgOrder)
    (Shape_hash : Shape -> Z) (hash_combine_size_t : Z -> Z -> Z)
    (hash_combine_bool : Z -> bool -> Z) (hash_combine_int : Z -> Z -> Z)
    (elapsed : Z -> Z)
    (a b bias : Expr) (transA transB : bool) (scale : float) (hash2 : Z)
    (tuner : AutoTuner) (g : ExpressionGraph) :
  Float32.eqb (backendClip g) (Float32.of_Z 0) = true ->
  alg2 newShape a b bias transA transB scale (backendClip g) hash2 g
  = match affine newShape argOrder Shape_hash hash_combine_size_t
            hash_combine_bool hash_combine_int elapsed
            a b bias transA transB scale tuner (unoptimized g) with
    | Ok (e, _, g1) => Ok (e, finished g g1 e hash2)
    | Failed f => Failed f
    end.
Proof.
  intros Hc. rewrite affine_untuned by reflexivity.
  change (backendClip (unoptimized g)) with (backendClip g).
  unfold alg2, clip.
  revert Hc.
  destruct (Float32.eqb (backendClip g) (Float32.of_Z 0)); [intros _|discriminate].
  unfold graph_ones, rec, record, bind, ret, lift, expr_eqb.
  rewrite !Nat.eqb_refl. cbn [negb].
  destruct (shape_rows (expr_shape a)) as [rows|f]; [|done].
  rewrite Expression_unoptimized.
  destruct (Expression newShape (ConstantNode [rows; 1] inits_ones) g)
    as [[ones g1]|f] eqn:E1; [|done].
  rewrite Expression_unoptimized.
  destruct (Expression newShape (AffineNodeOp [a; b; bias; ones] transA transB scale) g1)
    as [[r g2]|f] eqn:E2; [|done].
  destruct (Expression_same_config _ _ _ _ _ E1) as (O1 & _).
  destruct (Expression_same_config _ _ _ _ _ E2) as (O2 & _).
  unfold finished, with_recorded. simpl. by rewrite O2, O1.
Qed.

Lemma alg2_is_general_affine_witness :
  exists e g',
    alg2 Reference.newShape AffineExamples.a32 AffineExamples.b64
      AffineExamples.bias16 false false Examples.one Examples.zero 7
      (AffineExamples.gAffine true cpu Examples.zero) = Ok (e, g') /\
    expr_shape e = [32; 16].
Proof.
  pose proof (alg2_is_general_affine Reference.newShape LeftToRight
                Reference.Shape_hash Reference.hash_combine
                Reference.hash_combine_bool Reference.hash_combine Reference.elapsed
                AffineExamples.a32 AffineExamples.b64 AffineExamples.bias16
                false false Examples.one 7 newTuner
                (AffineExamples.gAffine true cpu Examples.zero) eq_refl) as H.
  change (backendClip (AffineExamples.gAffine true cpu Examples.zero))
    with Examples.zero in H.
  eexists _, _. rewrite H. split; reflexivity.
Defined.

(** X12.  In the general path of [affine], for [a] of a shape
    [init ++ [last]] within the range of [int] (positive dimensions, fewer
    than [2^31] elements), the column of ones has one row per row of [a]
    seen as a matrix: its shape is [[elements init; 1]], the first
    dimension being the one [flatten_2d a] has. *)
Theorem affine_ones_column (newShape : NodeOp -> option Shape)
    (argOrder : ArgOrder)
    (Shape_hash : Shape -> Z) (hash_combine_size_t : Z -> Z -> Z)
    (hash_combine_bool : Z -> bool -> Z) (hash_combine_int : Z -> Z -> Z)
    (elapsed : Z -> Z)
    (a b bias : Expr) (transA transB : bool) (scale : float)
    (init : Shape) (last : Z)
    (tuner : AutoTuner) (g : ExpressionGraph) (r : Expr) (t' : AutoTuner)
    (g' : ExpressionGraph) :
  optimized g && DeviceType_eqb (device g) cpu = false ->
  expr_shape a = init ++ [last] ->
  int_shape (expr_shape a) ->
  graph_wf newShape g ->
  affine newShape argOrder Shape_hash hash_combine_size_t hash_combine_bool
    hash_combine_int elapsed a b bias transA transB scale tuner g
  = Ok (r, t', g') ->
  exists ac bc ones,
    op_of g' ones = Some (ConstantNode [ShapeOps.elements init; 1] inits_ones) /\
    op_of g' r = Some (AffineNodeOp [ac; bc; bias; ones] transA transB scale) /\
    flatten_2d newShape a = reshape newShape a [ShapeOps.elements init; last].
Proof.
  intros Ht Sa Hs WF H. rewrite affine_untuned in H by done.
  destruct (affine_general_Ok _ _ _ _ _ _ _ _ _ _ _ _ WF H)
    as (_ & ac & bc & rows & ones & Hrows & O1 & _ & _ & O2 & _).
  rewrite (shape_rows_snoc_inv _ init last rows Hrows Sa Hs) in O1.
  exists ac, bc, ones. split; [done|]. split; [done|].
  by apply flatten_2d_reshape.
Qed.

Lemma affine_ones_column_witness :
  exists r t' g' ones,
    AffineExamples.affine_ref AffineExamples.a32 AffineExamples.b64
      AffineExamples.bias16 newTuner (AffineExamples.gAffine false gpu Examples.zero)
    = Ok (r, t', g') /\
    op_of g' ones = Some (ConstantNode [32; 1] inits_ones).
Proof.
  assert (int_shape (expr_shape AffineExamples.a32)) as Hs.
  { split; [repeat constructor | reflexivity]. }
  eexists _, _, _.
  destruct (affine_ones_column Reference.newShape LeftToRight
              Reference.Shape_hash Reference.hash_combine
              Reference.hash_combine_bool Reference.hash_combine Reference.elapsed
              AffineExamples.a32 AffineExamples.b64 AffineExamples.bias16
              false false Examples.one [32] 64 newTuner
              (AffineExamples.gAffine false gpu Examples.zero)
              _ _ _ eq_refl eq_refl Hs
              (graph_wf_gAffine false gpu Examples.zero) eq_refl)
    as (ac & bc & ones & O & _).
  exists ones. split; [reflexivity | exact O].
Defined.

(** ** The index vectors of the cuDNN conversions *)

Lemma push_loop {A} (f : nat -> A) (acc : list A) (n : nat) :
  foldl (fun acc t => acc ++ [f t]) acc (seq 0 n) = acc ++ (f <$> seq 0 n).
Proof.
  induction n as [|n IH].
  - simpl. by rewrite app_nil_r.
  - rewrite seq_S, foldl_app, IH. simpl.
    rewrite fmap_app. simpl. by rewrite app_assoc.
Qed.

Lemma foldl_pointwise {A B} (f f' : A -> B -> A) (l : list B) (a : A) :
  (forall x y, f x y = f' x y) -> foldl f a l = foldl f' a l.
Proof.
  intros H. revert a. induction l as [|y l IH]; intros a; simpl; [done|].
  by rewrite H, IH.
Qed.

(** A vector built block by block, every block of length [w]: entry
    [b * w + t] is entry [t] of block [b]. *)
Lemma block_loop {A} (blk : nat -> list A) (w n : nat) :
  (forall b, length (blk b) = w) ->
  let v := foldl (fun acc b => acc ++ blk b) [] (seq 0 n) in
  length v = (n * w)%nat /\
  forall b t, (b < n)%nat -> (t < w)%nat -> v !! (b * w + t)%nat = blk b !! t.
Proof.
  intros Hw. induction n as [|n [IHl IHv]].
  - simpl. split; [done|]. intros b t Hb. lia.
  - cbv zeta. rewrite seq_S, foldl_app. simpl.
    split.
    + rewrite length_app, IHl, Hw. lia.
    + intros b t Hb Ht.
      destruct (decide (b < n)%nat) as [Hlt|Hge].
      * rewrite lookup_app_l by (rewrite IHl; nia). by apply IHv.
      * assert (b = n) as -> by lia.
        rewrite <- IHl. apply lookup_app_plus.
Qed.

Lemma to_IndexType_small (z : Z) : 0 <= z < 2 ^ 32 -> to_IndexType z = z.
Proof. intros H. unfold to_IndexType. by apply Z.mod_small. Qed.

(** Entry [b * numWords + t] of the vector of [convert2cudnnFormat]. *)
Lemma convert2cudnnFormat_indices_lookup (numWords numExamples : Z) :
  let v := convert2cudnnFormat_indices numWords numExamples in
  length v = (Z.to_nat numExamples * Z.to_nat numWords)%nat /\
  forall b t : nat,
    (b < Z.to_nat numExamples)%nat -> (t < Z.to_nat numWords)%nat ->
    v !! (b * Z.to_nat numWords + t)%nat
    = Some (to_IndexType (Z.of_nat t * numExamples + Z.of_nat b)).
Proof.
  intros v.
  assert (v = foldl (fun acc b =>
                       acc ++ ((fun t => to_IndexType
                                           (Z.of_nat t * numExamples + Z.of_nat b))
                                 <$> seq 0 (Z.to_nat numWords)))
                    [] (seq 0 (Z.to_nat numExamples))) as ->.
  { unfold v, convert2cudnnFormat_indices. apply foldl_pointwise.
    intros acc b. apply push_loop. }
  match goal with
  | |- context [foldl (fun acc b => acc ++ @?blk b) [] _] =>
      destruct (block_loop blk (Z.to_nat numWords) (Z.to_nat numExamples))
        as [Hl Hv]
  end.
  { intros b. by rewrite length_fmap, length_seq. }
  split; [exact Hl|].
  intros b t Hb Ht. rewrite Hv by done.
  rewrite list_lookup_fmap, lookup_seq_lt by done. done.
Qed.

(** Entry [t * batchDim + b] of the vector of [convertFromcudnnFormat]. *)
Lemma convertFromcudnnFormat_indices_lookup (batchDim sentenceDim : Z) :
  let v := convertFromcudnnFormat_indices batchDim sentenceDim in
  length v = (Z.to_nat sentenceDim * Z.to_nat batchDim)%nat /\
  forall t b : nat,
    (t < Z.to_nat sentenceDim)%nat -> (b < Z.to_nat batchDim)%nat ->
    v !! (t * Z.to_nat batchDim + b)%nat
    = Some (to_IndexType (Z.of_nat b * sentenceDim + Z.of_nat t)).
Proof.
  intros v.
  assert (v = foldl (fun acc t =>
                       acc ++ ((fun b => to_IndexType
                                           (Z.of_nat b * sentenceDim + Z.of_nat t))
                                 <$> seq 0 (Z.to_nat batchDim)))
                    [] (seq 0 (Z.to_nat sentenceDim))) as ->.
  { unfold v, convertFromcudnnFormat_indices. apply foldl_pointwise.
    intros acc b. apply push_loop. }
  match goal with
  | |- context [foldl (fun acc b => acc ++ @?blk b) [] _] =>
      destruct (block_loop blk (Z.to_nat batchDim) (Z.to_nat sentenceDim))
        as [Hl Hv]
  end.
  { intros b. by rewrite length_fmap, length_seq. }
  split; [exact Hl|].
  intros t b Ht Hb. rewrite Hv by done.
  rewrite list_lookup_fmap, lookup_seq_lt by done. done.
Qed.

(** X13.  The index vector of [convert2cudnnFormat] lists the rows of a
    [numWords] by [numExamples] grid column by column: it has
    [numWords * numExamples] entries, entry [b * numWords + t] is
    [t * numExamples + b], and every entry is a row of the grid.  With a
    dimension that is not positive the vector is empty. *)
Theorem convert2cudnnFormat_indices_spec (numWords numExamples : Z) :
  0 <= numWords -> 0 <= numExamples -> numWords * numExamples < 2 ^ 31 ->
  let v := convert2cudnnFormat_indices numWords numExamples in
  Z.of_nat (length v) = numWords * numExamples /\
  (forall b t, 0 <= b < numExamples -> 0 <= t < numWords ->
               v !! Z.to_nat (b * numWords + t) = Some (t * numExamples + b)) /\
  Forall (fun i => 0 <= i < numWords * numExamples) v /\
  (forall w, w <= 0 -> convert2cudnnFormat_indices w numExamples = []) /\
  (forall e, e <= 0 -> convert2cudnnFormat_indices numWords e = []).
Proof.
  intros HW HE Hbound v.
  destruct (convert2cudnnFormat_indices_lookup numWords numExamples) as [Hl Hv].
  fold v in Hl, Hv.
  assert (forall b t, 0 <= b < numExamples -> 0 <= t < numWords ->
            v !! Z.to_nat (b * numWords + t) = Some (t * numExamples + b)) as Hentry.
  { intros b t Hb Ht.
    replace (Z.to_nat (b * numWords + t))
      with (Z.to_nat b * Z.to_nat numWords + Z.to_nat t)%nat by nia.
    rewrite Hv by lia. rewrite !Z2Nat.id by lia.
    f_equal. apply to_IndexType_small. nia. }
  split; [rewrite Hl; nia|]. split; [exact Hentry|]. split; [|split].
  - apply Forall_lookup. intros k x Hk.
    assert (k < Z.to_nat numExamples * Z.to_nat numWords)%nat as Hlt
      by (rewrite <- Hl; by eapply lookup_lt_Some).
    assert (0 < Z.to_nat numWords)%nat as Hw by nia.
    pose proof (Nat.div_mod k (Z.to_nat numWords) ltac:(lia)) as Hdm.
    pose proof (Nat.mod_upper_bound k (Z.to_nat numWords) ltac:(lia)) as Hm.
    assert (k / Z.to_nat numWords < Z.to_nat numExamples)%nat as Hd
      by (apply Nat.Div0.div_lt_upper_bound; lia).
    rewrite Hdm in Hk.
    rewrite (Nat.mul_comm (Z.to_nat numWords)) in Hk.
    rewrite Hv in Hk by done. injection Hk as <-.
    rewrite to_IndexType_small by nia. nia.
  - intros w Hw. unfold convert2cudnnFormat_indices.
    replace (Z.to_nat w) with 0%nat by lia. simpl.
    by induction (seq 0 (Z.to_nat numExamples)).
  - intros e He. unfold convert2cudnnFormat_indices.
    by replace (Z.to_nat e) with 0%nat by lia.
Qed.

Lemma convert2cudnnFormat_indices_spec_witness :
  convert2cudnnFormat_indices 3 2 !! 4%nat = Some 3.
Proof.
  destruct (convert2cudnnFormat_indices_spec 3 2) as (_ & H & _); [lia..|].
  apply (H 1 1); lia.
Defined.

(** X14.  [convertFromcudnnFormat] undoes the gather of
    [convert2cudnnFormat]: looking up the vector of the one through the
    vector of the other is the identity on [0, numWords * numExamples), in
    either order, so the rows come back in their original order.  The
    shape does not come back: the result of the round trip on shape
    [[numWords; numExamples; embSize]] is reshaped to
    [[numExamples; numWords; embSize]]. *)
Theorem cudnn_round_trip (numWords numExamples embSize : Z) :
  0 <= numWords -> 0 <= numExamples -> numWords * numExamples < 2 ^ 31 ->
  let to := convert2cudnnFormat_indices numWords numExamples in
  let from := convertFromcudnnFormat_indices numExamples numWords in
  length from = length to /\
  (forall k : nat, (k < length to)%nat ->
     (from !! k ≫= fun i => to !! Z.to_nat i) = Some (Z.of_nat k) /\
     (to !! k ≫= fun i => from !! Z.to_nat i) = Some (Z.of_nat k)) /\
  rbind (convert2cudnnFormat_outShape [numWords; numExamples; embSize])
        convertFromcudnnFormat_shape
  = Ok [numExamples; numWords; embSize].
Proof.
  intros HW HE Hbound to from.
  destruct (convert2cudnnFormat_indices_lookup numWords numExamples) as [Hl Hv].
  destruct (convertFromcudnnFormat_indices_lookup numExamples numWords) as [Hl' Hv'].
  fold to in Hl, Hv. fold from in Hl', Hv'.
  set (w := Z.to_nat numWords) in *. set (e := Z.to_nat numExamples) in *.
  assert (numWords = Z.of_nat w) as EW by lia.
  assert (numExamples = Z.of_nat e) as EE by lia.
  split; [lia|]. split; [|reflexivity].
  intros k Hk. rewrite Hl in Hk. split.
  - assert (0 < e)%nat as He by nia.
    pose proof (Nat.div_mod k e ltac:(lia)) as Hdm.
    pose proof (Nat.mod_upper_bound k e ltac:(lia)) as Hm.
    assert (k / e < w)%nat as Hd by (apply Nat.Div0.div_lt_upper_bound; lia).
    set (t := (k / e)%nat) in *. set (b := (k mod e)%nat) in *.
    replace k with (t * e + b)%nat at 1 by lia.
    rewrite Hv' by done. simpl.
    rewrite to_IndexType_small by nia.
    replace (Z.to_nat (Z.of_nat b * numWords + Z.of_nat t))
      with (b * w + t)%nat by nia.
    rewrite Hv by done.
    rewrite to_IndexType_small by nia. f_equal. nia.
  - assert (0 < w)%nat as Hw by nia.
    pose proof (Nat.div_mod k w ltac:(lia)) as Hdm.
    pose proof (Nat.mod_upper_bound k w ltac:(lia)) as Hm.
    assert (k / w < e)%nat as Hd by (apply Nat.Div0.div_lt_upper_bound; lia).
    set (b := (k / w)%nat) in *. set (t := (k mod w)%nat) in *.
    replace k with (b * w + t)%nat at 1 by lia.
    rewrite Hv by done. simpl.
    rewrite to_IndexType_small by nia.
    replace (Z.to_nat (Z.of_nat t * numExamples + Z.of_nat b))
      with (t * e + b)%nat by nia.
    rewrite Hv' by done.
    rewrite to_IndexType_small by nia. f_equal. nia.
Qed.

Lemma cudnn_round_trip_witness :
  (convertFromcudnnFormat_indices 2 3 !! 4%nat
     ≫= fun i => convert2cudnnFormat_indices 3 2 !! Z.to_nat i) = Some 4.
Proof.
  destruct (cudnn_round_trip 3 2 5) as (_ & H & _); [lia..|].
  destruct (H 4%nat) as [H1 _]; [vm_compute; lia|]. exact H1.
Defined.
